(** * Weather globe widget: tile URLs, overlay refresh and token gate

    A shallow embedding of [src/pages/Index.tsx] (the page shell followed by
    the [WeatherMap] component) and the properties of its observable
    contract.

    Conventions of the embedding:
    - a TypeScript string is a [string]; the string-literal union
      [VariableKey] is an enumeration with its runtime string given by
      [key];
    - [timestep : number] ranges over the integer-valued numbers, as [Z];
      template interpolation of such a number is its decimal numeral
      ([Number_toString]), which is what JavaScript prints for integers of
      magnitude below 10^21; what holds of every number is stated with the
      type of numbers and their printing as parameters
      ([buildWeatherTilesWith]);
    - [string | null] is [option string]; JavaScript truthiness of such a
      value is [truthy];
    - the mapping SDK is external: the map object is modelled by the part of
      it the component touches (its source and layer registries, the fog
      setting, whether its style has loaded) together with the log of the
      calls made on it. *)

From Stdlib Require Import QArith.
From stdpp Require Import base decidable option list strings pretty gmap.

Open Scope Z_scope.

(** ** Constants of the module (lines 35-46) *)

Inductive VariableKey := air_temperature | wind_stream | precipitation_shaded.

#[global] Instance VariableKey_eq_dec : EqDecision VariableKey.
Proof. solve_decision. Defined.

(** The runtime value of a [VariableKey]. *)
Definition key (v : VariableKey) : string :=
  match v with
  | air_temperature => "air_temperature"
  | wind_stream => "wind_stream"
  | precipitation_shaded => "precipitation_shaded"
  end.

Definition label (v : VariableKey) : string :=
  match v with
  | air_temperature => "Temperature"
  | wind_stream => "Wind Stream"
  | precipitation_shaded => "Precipitation"
  end.

Definition VARIABLES : list VariableKey :=
  [air_temperature; wind_stream; precipitation_shaded].

Definition TIMESTEPS : list Z := [0; 6; 12; 24; 36; 48; 60; 72].

Definition WEATHER_SOURCE_ID : string := "weather-tiles".
Definition WEATHER_LAYER_ID : string := "weather-tiles-layer".

(** ** Tile URL builder (lines 48-49) *)

(** Interpolation of an integer-valued number into a template literal. It
    stands for the language's printing of numbers only where that is the
    decimal numeral: for the integers of magnitude below 10^21. *)
Definition Number_toString (n : Z) : string := pretty n.

Definition buildWeatherTiles (variable : VariableKey) (timestep : Z) : string :=
  "https://weather.openportguide.de/tiles/actual/" +:+ key variable +:+ "/"
    +:+ Number_toString timestep +:+ "h/{z}/{x}/{y}.png".

(** The same lines with the type of numbers and the language's printing of
    a number in a template literal left open, so that [timestep] ranges over
    every number there is: an integer, large or small, a fraction, or NaN.
    [buildWeatherTiles] is its instance at the integers. *)
Definition buildWeatherTilesWith {number : Type} (toString : number → string)
    (variable : VariableKey) (timestep : number) : string :=
  "https://weather.openportguide.de/tiles/actual/" +:+ key variable +:+ "/"
    +:+ toString timestep +:+ "h/{z}/{x}/{y}.png".

(** *** The URL as the specification words it: a template with placeholders *)

Definition TILE_URL_TEMPLATE : string :=
  "https://weather.openportguide.de/tiles/actual/{v}/{t}h/{z}/{x}/{y}.png".

(** [strip_prefix p s] is the rest of [s] after the prefix [p], if [p] is one. *)
Fixpoint strip_prefix (p s : string) : option string :=
  match p, s with
  | EmptyString, _ => Some s
  | String a p', String b s' =>
      if decide (a = b) then strip_prefix p' s' else None
  | String _ _, EmptyString => None
  end.

(** [substitute_from skip hole value s] replaces every occurrence of the
    non-empty text [hole] in [s] by [value], scanning left to right; [skip]
    counts the characters of an occurrence just replaced that are still to be
    dropped. *)
Fixpoint substitute_from (skip : nat) (hole value s : string) : string :=
  match s with
  | EmptyString => EmptyString
  | String c s' =>
      match skip with
      | S k => substitute_from k hole value s'
      | O =>
          match strip_prefix hole s with
          | Some _ =>
              value +:+ substitute_from (String.length hole - 1) hole value s'
          | None => String c (substitute_from 0 hole value s')
          end
      end
  end.

Definition substitute (hole value s : string) : string :=
  substitute_from 0 hole value s.

(** The URL the tile service documents for variable [v] and lead-time [t]. *)
Definition template_url (v : VariableKey) (t : Z) : string :=
  substitute "{t}" (Number_toString t) (substitute "{v}" (key v) TILE_URL_TEMPLATE).

(** ** The map object of the mapping SDK

    The SDK is an external collaborator; the component uses it through
    [getLayer], [removeLayer], [getSource], [removeSource], [addSource],
    [addLayer], [setFog], [addControl], [on], [scrollZoom.disable] and
    [remove]. The registries below enforce nothing by themselves: adding
    appends an entry, removing deletes every entry with the given ID. That
    an overlay ID is never registered twice is therefore a property of the
    refresh procedure, not of the model. Layers are a list because their
    order is the drawing order. One thing the SDK does enforce is modelled:
    until the style has finished loading ([styleLoaded], set when
    [style.load] fires) [addSource] and [addLayer] throw and change
    nothing. *)

Record RasterSource := {
  source_type : string;
  tiles : list string;
  tileSize : Z;
  attribution : string
}.

Record RasterLayer := {
  layer_id : string;
  layer_type : string;
  source : string;
  raster_opacity : Q
}.

Record FogSpec := {
  color : string;
  high_color : string;
  horizon_blend : Q
}.

Record MapOptions := {
  style : string;
  projection : string;
  zoom : Q;
  center : Q * Q;
  pitch : Q;
  attributionControl : bool
}.

(** A registered event listener is the closure of lines 85-94; it is
    represented by what it captured from the render that created it. *)
Record Listener := {
  event : string;
  captured_variable : VariableKey;
  captured_timestep : Z
}.

Inductive MapCall :=
  | CallGetLayer (id : string)
  | CallRemoveLayer (id : string)
  | CallGetSource (id : string)
  | CallRemoveSource (id : string)
  | CallAddSource (id : string) (s : RasterSource)
  | CallAddLayer (l : RasterLayer)
  | CallSetFog (f : FogSpec)
  | CallAddControl (position : string)
  | CallOn (l : Listener)
  | CallScrollZoomDisable
  | CallRemove.

Record MapboxMap := {
  options : MapOptions;
  sources : list (string * RasterSource);
  layers : list RasterLayer;
  fog : option FogSpec;
  listeners : list Listener;
  scrollZoom : bool;
  styleLoaded : bool;
  calls : list MapCall
}.

Definition set_sources (x : list (string * RasterSource)) (m : MapboxMap) : MapboxMap :=
  {| options := options m; sources := x; layers := layers m; fog := fog m;
     listeners := listeners m; scrollZoom := scrollZoom m;
     styleLoaded := styleLoaded m; calls := calls m |}.
Definition set_layers (x : list RasterLayer) (m : MapboxMap) : MapboxMap :=
  {| options := options m; sources := sources m; layers := x; fog := fog m;
     listeners := listeners m; scrollZoom := scrollZoom m;
     styleLoaded := styleLoaded m; calls := calls m |}.
Definition set_fog (x : option FogSpec) (m : MapboxMap) : MapboxMap :=
  {| options := options m; sources := sources m; layers := layers m; fog := x;
     listeners := listeners m; scrollZoom := scrollZoom m;
     styleLoaded := styleLoaded m; calls := calls m |}.
Definition set_listeners (x : list Listener) (m : MapboxMap) : MapboxMap :=
  {| options := options m; sources := sources m; layers := layers m; fog := fog m;
     listeners := x; scrollZoom := scrollZoom m;
     styleLoaded := styleLoaded m; calls := calls m |}.
Definition set_scrollZoom (x : bool) (m : MapboxMap) : MapboxMap :=
  {| options := options m; sources := sources m; layers := layers m; fog := fog m;
     listeners := listeners m; scrollZoom := x;
     styleLoaded := styleLoaded m; calls := calls m |}.
Definition set_calls (x : list MapCall) (m : MapboxMap) : MapboxMap :=
  {| options := options m; sources := sources m; layers := layers m; fog := fog m;
     listeners := listeners m; scrollZoom := scrollZoom m;
     styleLoaded := styleLoaded m; calls := x |}.
Definition set_styleLoaded (x : bool) (m : MapboxMap) : MapboxMap :=
  {| options := options m; sources := sources m; layers := layers m; fog := fog m;
     listeners := listeners m; scrollZoom := scrollZoom m;
     styleLoaded := x; calls := calls m |}.

(** What a call does to the map, leaving the call log aside. The SDK
    refuses to add a source or a layer before the style has finished
    loading: such a call leaves the map as it is. *)
Definition apply_call (c : MapCall) (m : MapboxMap) : MapboxMap :=
  match c with
  | CallGetLayer _ | CallGetSource _ | CallAddControl _ | CallRemove => m
  | CallRemoveLayer id =>
      set_layers (filter (λ l, layer_id l ≠ id) (layers m)) m
  | CallRemoveSource id =>
      set_sources (filter (λ p, p.1 ≠ id) (sources m)) m
  | CallAddSource id s =>
      if styleLoaded m then set_sources (sources m ++ [(id, s)]) m else m
  | CallAddLayer l =>
      if styleLoaded m then set_layers (layers m ++ [l]) m else m
  | CallSetFog f => set_fog (Some f) m
  | CallOn l => set_listeners (listeners m ++ [l]) m
  | CallScrollZoomDisable => set_scrollZoom false m
  end.

Definition record_call (c : MapCall) (m : MapboxMap) : MapboxMap :=
  set_calls (calls m ++ [c]) m.

(** The map after the calls [cs], made in order, without logging them. *)
Definition replay (cs : list MapCall) (m : MapboxMap) : MapboxMap :=
  foldl (λ m c, apply_call c m) m cs.

(** ** Computations that may throw *)

Inductive Completion (A : Type) :=
  | Normal (a : A)
  | Throw (e : string).
Arguments Normal {A} a.
Arguments Throw {A} e.

(** A computation over a mutable state [S]: what it leaves behind stays
    behind also when it throws. *)
Definition Eff (S A : Type) : Type := S → Completion A * S.

#[global] Instance Eff_ret {S} : MRet (Eff S) := λ A a s, (Normal a, s).
#[global] Instance Eff_bind {S} : MBind (Eff S) := λ A B f c s,
  match c s with
  | (Normal a, s') => f a s'
  | (Throw e, s') => (Throw e, s')
  end.

(** [try { body } catch (e) { handler }] *)
Definition try_catch {S A} (body : Eff S A) (handler : string → Eff S A) : Eff S A :=
  λ s, match body s with
       | (Normal a, s') => (Normal a, s')
       | (Throw e, s') => handler e s'
       end.

(** [if (cond) stmt] *)
Definition when {S} (cond : bool) (stmt : Eff S unit) : Eff S unit :=
  if cond then stmt else mret ().

(** Truthiness of an object-or-undefined result. *)
Definition defined {A} (o : option A) : bool :=
  match o with Some _ => true | None => false end.

Abbreviation SDK := (Eff MapboxMap).

Definition call (c : MapCall) : SDK unit :=
  λ m, (Normal (), record_call c (apply_call c m)).

Definition getLayer (id : string) : SDK (option RasterLayer) :=
  λ m, (Normal (find (λ l, bool_decide (layer_id l = id)) (layers m)),
        record_call (CallGetLayer id) m).
Definition getSource (id : string) : SDK (option RasterSource) :=
  λ m, (Normal (snd <$> find (λ p, bool_decide (p.1 = id)) (sources m)),
        record_call (CallGetSource id) m).
Definition removeLayer (id : string) : SDK unit := call (CallRemoveLayer id).
Definition removeSource (id : string) : SDK unit := call (CallRemoveSource id).

(** The error of the SDK's style when it is changed before it has loaded. *)
Definition STYLE_NOT_LOADED : string := "Style is not done loading".

(** A call that needs the loaded style: before that it throws. *)
Definition call_on_style (c : MapCall) : SDK unit :=
  λ m, (if styleLoaded m then Normal () else Throw STYLE_NOT_LOADED,
        record_call c (apply_call c m)).

Definition addSource (id : string) (s : RasterSource) : SDK unit :=
  call_on_style (CallAddSource id s).
Definition addLayer (l : RasterLayer) : SDK unit := call_on_style (CallAddLayer l).
Definition addControl (position : string) : SDK unit := call (CallAddControl position).
Definition on (l : Listener) : SDK unit := call (CallOn l).
Definition scrollZoom_disable : SDK unit := call CallScrollZoomDisable.
Definition remove : SDK unit := call CallRemove.

(** [setFog] is the one call the component guards with [try]: whether it
    throws is up to the SDK. It is either given as a parameter or taken from
    the two behaviours below. *)
Definition setFog_applies (f : FogSpec) : SDK unit := call (CallSetFog f).
Definition setFog_throws (e : string) (f : FogSpec) : SDK unit :=
  λ m, (Throw e, record_call (CallSetFog f) m).

Definition new_Map (o : MapOptions) : MapboxMap :=
  {| options := o; sources := []; layers := []; fog := None;
     listeners := []; scrollZoom := true; styleLoaded := false; calls := [] |}.

(** ** The component (lines 51-222) *)

Inductive BrowserCall :=
  | SetItem (k v : string)
  | Reload.

(** Everything the component reads or writes: the browser's local storage
    and the log of storage writes and page reloads; the SDK's global access
    token and the number of maps constructed so far; the two refs; the three
    pieces of React state; the maps already disposed of. *)
Record World := {
  localStorage : gmap string string;
  browser : list BrowserCall;
  accessToken : option string;
  constructed : nat;
  disposed : list MapboxMap;
  mapContainer : bool;
  mapRef : option MapboxMap;
  mapboxToken : option string;
  variable : VariableKey;
  timestep : Z
}.

Definition set_localStorage (x : gmap string string) (w : World) : World :=
  {| localStorage := x; browser := browser w; accessToken := accessToken w;
     constructed := constructed w; disposed := disposed w;
     mapContainer := mapContainer w; mapRef := mapRef w;
     mapboxToken := mapboxToken w; variable := variable w; timestep := timestep w |}.
Definition set_browser (x : list BrowserCall) (w : World) : World :=
  {| localStorage := localStorage w; browser := x; accessToken := accessToken w;
     constructed := constructed w; disposed := disposed w;
     mapContainer := mapContainer w; mapRef := mapRef w;
     mapboxToken := mapboxToken w; variable := variable w; timestep := timestep w |}.
Definition set_accessToken (x : option string) (w : World) : World :=
  {| localStorage := localStorage w; browser := browser w; accessToken := x;
     constructed := constructed w; disposed := disposed w;
     mapContainer := mapContainer w; mapRef := mapRef w;
     mapboxToken := mapboxToken w; variable := variable w; timestep := timestep w |}.
Definition set_constructed (x : nat) (w : World) : World :=
  {| localStorage := localStorage w; browser := browser w; accessToken := accessToken w;
     constructed := x; disposed := disposed w;
     mapContainer := mapContainer w; mapRef := mapRef w;
     mapboxToken := mapboxToken w; variable := variable w; timestep := timestep w |}.
Definition set_disposed (x : list MapboxMap) (w : World) : World :=
  {| localStorage := localStorage w; browser := browser w; accessToken := accessToken w;
     constructed := constructed w; disposed := x;
     mapContainer := mapContainer w; mapRef := mapRef w;
     mapboxToken := mapboxToken w; variable := variable w; timestep := timestep w |}.
Definition set_mapContainer (x : bool) (w : World) : World :=
  {| localStorage := localStorage w; browser := browser w; accessToken := accessToken w;
     constructed := constructed w; disposed := disposed w;
     mapContainer := x; mapRef := mapRef w;
     mapboxToken := mapboxToken w; variable := variable w; timestep := timestep w |}.
Definition set_mapRef (x : option MapboxMap) (w : World) : World :=
  {| localStorage := localStorage w; browser := browser w; accessToken := accessToken w;
     constructed := constructed w; disposed := disposed w;
     mapContainer := mapContainer w; mapRef := x;
     mapboxToken := mapboxToken w; variable := variable w; timestep := timestep w |}.
Definition setMapboxToken (x : option string) (w : World) : World :=
  {| localStorage := localStorage w; browser := browser w; accessToken := accessToken w;
     constructed := constructed w; disposed := disposed w;
     mapContainer := mapContainer w; mapRef := mapRef w;
     mapboxToken := x; variable := variable w; timestep := timestep w |}.
Definition setVariable (x : VariableKey) (w : World) : World :=
  {| localStorage := localStorage w; browser := browser w; accessToken := accessToken w;
     constructed := constructed w; disposed := disposed w;
     mapContainer := mapContainer w; mapRef := mapRef w;
     mapboxToken := mapboxToken w; variable := x; timestep := timestep w |}.
Definition setTimestep (x : Z) (w : World) : World :=
  {| localStorage := localStorage w; browser := browser w; accessToken := accessToken w;
     constructed := constructed w; disposed := disposed w;
     mapContainer := mapContainer w; mapRef := mapRef w;
     mapboxToken := mapboxToken w; variable := variable w; timestep := x |}.

Abbreviation App := (Eff World).

(** Truthiness of a [string | null]: [null] and the empty string are falsy. *)
Definition truthy (t : option string) : bool :=
  match t with
  | None | Some EmptyString => false
  | Some (String _ _) => true
  end.

Definition TOKEN_KEY : string := "MAPBOX_TOKEN".

(** State of a freshly mounted component before its first render
    (lines 52-59): the token comes from local storage. *)
Definition initial_state (storage : gmap string string) : World :=
  {| localStorage := storage; browser := []; accessToken := None;
     constructed := 0; disposed := [];
     mapContainer := false; mapRef := None;
     mapboxToken := storage !! TOKEN_KEY;
     variable := air_temperature; timestep := 6 |}.

Definition MAP_OPTIONS : MapOptions :=
  {| style := "mapbox://styles/mapbox/light-v11"; projection := "globe";
     zoom := 2.2%Q; center := (10%Q, 20%Q); pitch := 45%Q;
     attributionControl := true |}.

Definition FOG : FogSpec :=
  {| color := "rgba(255,255,255,1)"; high_color := "rgba(200,200,230,1)";
     horizon_blend := 0.2%Q |}.

Definition weather_source (variable : VariableKey) (timestep : Z) : RasterSource :=
  {| source_type := "raster";
     tiles := [buildWeatherTiles variable timestep];
     tileSize := 256;
     attribution :=
       "Weather tiles © OpenPortGuide (demo) | Base map © Mapbox & OpenStreetMap" |}.

Definition weather_layer : RasterLayer :=
  {| layer_id := WEATHER_LAYER_ID; layer_type := "raster";
     source := WEATHER_SOURCE_ID; raster_opacity := 0.85%Q |}.

(** Lines 117-142: the calls made on the map once it is known to exist. *)
Definition refresh_overlay (variable : VariableKey) (timestep : Z) : SDK unit :=
  l ← getLayer WEATHER_LAYER_ID;
  when (defined l) (removeLayer WEATHER_LAYER_ID);;
  s ← getSource WEATHER_SOURCE_ID;
  when (defined s) (removeSource WEATHER_SOURCE_ID);;
  addSource WEATHER_SOURCE_ID (weather_source variable timestep);;
  addLayer weather_layer.

(** Lines 113-143. [variable] and [timestep] are those of the render whose
    closure is being run. *)
Definition addOrUpdateWeatherLayer (variable : VariableKey) (timestep : Z) : App unit :=
  λ w, match mapRef w with
       | None => (Normal (), w)
       | Some map =>
           let '(c, map') := refresh_overlay variable timestep map in
           (c, set_mapRef (Some map') w)
       end.

(** Calls made on the map a closure holds in its variable [map]. The only
    such closure is the [style.load] listener; the map that emits the event
    is the one [mapRef] holds, since the ref is cleared exactly when the map
    is removed. *)
Definition on_map (body : SDK unit) : App unit :=
  λ w, match mapRef w with
       | None => (Normal (), w)
       | Some map => let '(c, map') := body map in (c, set_mapRef (Some map') w)
       end.

(** Lines 85-94, the listener for [style.load]; [setFog] is the SDK's. *)
Definition styleLoadHandler (setFog : FogSpec → SDK unit) (l : Listener) : App unit :=
  on_map (try_catch (setFog FOG) (λ _, mret ()));;
  addOrUpdateWeatherLayer (captured_variable l) (captured_timestep l).

(** Lines 62-98, the body of the first effect. *)
Definition initMapEffect (w : World) : World :=
  if negb (mapContainer w) || negb (truthy (mapboxToken w)) then w
  else
    let w := set_accessToken (mapboxToken w) w in
    let map := new_Map MAP_OPTIONS in
    let w := set_constructed (S (constructed w)) w in
    let w := set_mapRef (Some map) w in
    let setup : SDK unit :=
      addControl "top-right";;
      on {| event := "style.load"; captured_variable := variable w;
            captured_timestep := timestep w |};;
      scrollZoom_disable in
    set_mapRef (Some (setup map).2) w.

(** Lines 99-102, the cleanup the first effect returns; there is one to run
    exactly when the effect went past its guard, that is when [mapRef] holds
    a map. *)
Definition initMapCleanup (w : World) : World :=
  match mapRef w with
  | None => w
  | Some map => set_mapRef None (set_disposed (disposed w ++ [(remove map).2]) w)
  end.

(** Lines 107-111, the second effect. *)
Definition updateLayerEffect : App unit :=
  λ w, match mapRef w with
       | None => (Normal (), w)
       | Some _ => addOrUpdateWeatherLayer (variable w) (timestep w) w
       end.

(** Lines 145-149. *)
Definition saveToken (w : World) : World :=
  match mapboxToken w with
  | None | Some EmptyString => w
  | Some tok =>
      let w := set_localStorage (<[TOKEN_KEY := tok]> (localStorage w)) w in
      let w := set_browser (browser w ++ [SetItem TOKEN_KEY tok]) w in
      set_browser (browser w ++ [Reload]) w
  end.

(** Line 166, the [onClick] of the Clear button. *)
Definition clearToken (w : World) : World := setMapboxToken (Some "") w.

(** Line 163, the [onChange] of the token field. *)
Definition changeToken (value : string) (w : World) : World :=
  setMapboxToken (Some value) w.

(** *** What the user and the SDK can make happen *)

Inductive Trigger :=
  | InputChange (value : string)
  | ClickClear
  | ClickSave
  | SelectVariable (v : VariableKey)
  | SlideTimestep (v : Z)
  | StyleLoad (fog_error : option string)
  | Unmount.

(** After a render in which [mapboxToken] differs from the previous one the
    first effect is cleaned up and run again (dependency list of line 104). *)
Definition afterTokenRender (previous : option string) (w : World) : World :=
  if decide (mapboxToken w = previous) then w
  else initMapEffect (initMapCleanup w).

(** How an effect ends. One that throws takes the component down: there is
    no error boundary, so React unmounts the tree, which runs the cleanup of
    the first effect. *)
Definition after_effect (r : Completion unit * World) : World :=
  match r.1 with
  | Normal _ => r.2
  | Throw _ => initMapCleanup r.2
  end.

(** After a render in which [variable] or [timestep] differs from the
    previous one the second effect runs (dependency list of line 111). *)
Definition afterInputsRender (previous_variable : VariableKey)
    (previous_timestep : Z) (w : World) : World :=
  if decide (variable w = previous_variable ∧ timestep w = previous_timestep)
  then w
  else after_effect (updateLayerEffect w).

Definition setFog_of (fog_error : option string) : FogSpec → SDK unit :=
  match fog_error with
  | None => setFog_applies
  | Some e => setFog_throws e
  end.

Definition fire (t : Trigger) (w : World) : World :=
  match t with
  | InputChange value => afterTokenRender (mapboxToken w) (changeToken value w)
  | ClickClear => afterTokenRender (mapboxToken w) (clearToken w)
  | ClickSave => saveToken w
  | SelectVariable v => afterInputsRender (variable w) (timestep w) (setVariable v w)
  | SlideTimestep v => afterInputsRender (variable w) (timestep w) (setTimestep v w)
  | StyleLoad fog_error =>
      match mapRef w with
      | None => w
      | Some map =>
          (* the SDK emits the event once the style has finished loading *)
          foldl (λ w l, (styleLoadHandler (setFog_of fog_error) l w).2)
                (set_mapRef (Some (set_styleLoaded true map)) w)
                (filter (λ l, event l = "style.load") (listeners map))
      end
  | Unmount => initMapCleanup w
  end.

(** Mounting: first render, the container ref is attached, then both
    effects run in order. *)
Definition mount (storage : gmap string string) : World :=
  after_effect
    (updateLayerEffect (initMapEffect (set_mapContainer true (initial_state storage)))).

(** *** What is rendered (lines 151-221) *)

Inductive FormControl :=
  | Heading (text : string)
  | TextField (placeholder value : string)
  | Button (text : string) (onClick : Trigger).

Record ControlPanel := {
  selected : VariableKey;
  choices : list (string * string);
  lead_time : string;
  slider_value : Z;
  slider_min : Z;
  slider_max : Z;
  slider_step : Z
}.

Inductive Element :=
  | TokenForm (controls : list FormControl)
  | MapContainerDiv
  | Controls (panel : ControlPanel)
  | AmbientAccent.

Definition token_form (w : World) : Element :=
  TokenForm
    [ Heading "Enter Mapbox public token";
      TextField "pk.eyJ1Ijo..." (default "" (mapboxToken w));
      Button "Clear" ClickClear;
      Button "Save token" ClickSave ].

Definition control_panel (w : World) : Element :=
  Controls
    {| selected := variable w;
       choices := (λ v, (key v, label v)) <$> VARIABLES;
       lead_time := Number_toString (timestep w) +:+ "h";
       slider_value := timestep w;
       slider_min := 0; slider_max := 72; slider_step := 6 |}.

Definition render (w : World) : list Element :=
  (if negb (truthy (mapboxToken w)) then [token_form w] else [])
    ++ [MapContainerDiv; control_panel w; AmbientAccent].

Definition is_token_form (e : Element) : bool :=
  match e with TokenForm _ => true | _ => false end.

(** ** Vocabulary of the properties *)

(** How many sources and layers carry the overlay IDs. *)
Definition overlay_sources (m : MapboxMap) : nat :=
  length (filter (λ p, p.1 = WEATHER_SOURCE_ID) (sources m)).
Definition overlay_layers (m : MapboxMap) : nat :=
  length (filter (λ l, layer_id l = WEATHER_LAYER_ID) (layers m)).




(** The calls one refresh makes on the map [m]; the last one is not reached
    when [addSource] throws. *)
Definition refresh_calls (variable : VariableKey) (timestep : Z) (m : MapboxMap)
  : list MapCall :=
  [CallGetLayer WEATHER_LAYER_ID]
  ++ (if defined (find (λ l, bool_decide (layer_id l = WEATHER_LAYER_ID)) (layers m))
      then [CallRemoveLayer WEATHER_LAYER_ID] else [])
  ++ [CallGetSource WEATHER_SOURCE_ID]
  ++ (if defined (find (λ p, bool_decide (p.1 = WEATHER_SOURCE_ID)) (sources m))
      then [CallRemoveSource WEATHER_SOURCE_ID] else [])
  ++ [CallAddSource WEATHER_SOURCE_ID (weather_source variable timestep)]
  ++ (if styleLoaded m then [CallAddLayer weather_layer] else []).

(** How one refresh of the map [m] ends. *)
Definition refresh_completion (m : MapboxMap) : Completion unit :=
  if styleLoaded m then Normal () else Throw STYLE_NOT_LOADED.


(** The map as it looks, that is without the log of the calls made on it. *)
Definition appearance (m : MapboxMap) : MapboxMap := set_calls [] m.

(** [untouched w w']: local storage and the log of storage writes and
    reloads are the same in [w'] as in [w]. *)
Definition untouched (w w' : World) : Prop :=
  localStorage w' = localStorage w ∧ browser w' = browser w.

(** A world whose ref holds a freshly constructed map, and the world of a
    page opened with a token in local storage. *)
Definition fresh_map_world : World :=
  set_mapRef (Some (new_Map MAP_OPTIONS)) (set_mapContainer true (initial_state ∅)).
Definition token_world : World := mount {[ TOKEN_KEY := "pk.demo" ]}.

(** A world whose ref holds a map whose style has loaded; the world after a
    token was typed into the form of a page opened without one, and that
    world once the style of its map has loaded. *)
Definition loaded_map_world : World :=
  set_mapRef (Some (set_styleLoaded true (new_Map MAP_OPTIONS)))
             (set_mapContainer true (initial_state ∅)).
Definition typed_token_world : World := fire (InputChange "pk.demo") (mount ∅).
Definition styled_world : World := fire (StyleLoad None) typed_token_world.

(** *** Runs of the component *)

#[global] Instance Trigger_eq_dec : EqDecision Trigger.
Proof. solve_decision. Defined.

(** The triggers [trs] fired one after the other. *)
Definition fire_all (trs : list Trigger) (w : World) : World :=
  foldl (λ w tr, fire tr w) w trs.

(** The controls of the token form, if the render shows it. *)
Definition form_controls (w : World) : list FormControl :=
  flat_map (λ e, match e with TokenForm cs => cs | _ => [] end) (render w).

(** The rendered control panels. *)
Definition panels (w : World) : list ControlPanel :=
  flat_map (λ e, match e with Controls p => [p] | _ => [] end) (render w).

(** What the page offers in world [w]: typing needs the rendered text
    field, a click the rendered button with that handler; the control panel
    is always there, and the SDK and React may come in at any time. *)
Definition offered (tr : Trigger) (w : World) : bool :=
  match tr with
  | InputChange _ =>
      existsb (λ c, match c with TextField _ _ => true | _ => false end)
              (form_controls w)
  | ClickClear | ClickSave =>
      existsb (λ c, match c with
                    | Button _ onClick => bool_decide (onClick = tr)
                    | _ => false
                    end)
              (form_controls w)
  | SelectVariable _ | SlideTimestep _ | StyleLoad _ | Unmount => true
  end.

(** Every trigger of the run is offered when its turn comes. *)
Fixpoint all_offered (trs : list Trigger) (w : World) : bool :=
  match trs with
  | [] => true
  | tr :: trs' => offered tr w && all_offered trs' (fire tr w)
  end.

(** How many maps the ref holds. *)
Definition live_maps (w : World) : nat :=
  match mapRef w with Some _ => 1 | None => 0 end.

(** The values a slider can take: [min], [min + step], ... up to [max]. *)
Definition slider_stops (p : ControlPanel) : list Z :=
  (λ k, slider_min p + k * slider_step p)
    <$> seqZ 0 ((slider_max p - slider_min p) `div` slider_step p + 1).

(** The look of a map right after the first effect constructed it: the
    options of line 67, scroll zoom disabled, and one listener, on
    [style.load]. *)
Definition configured (m : MapboxMap) : Prop :=
  options m = MAP_OPTIONS ∧ scrollZoom m = false
  ∧ ∃ v t, listeners m = [ {| event := "style.load"; captured_variable := v;
                              captured_timestep := t |} ].

(** [same_lifecycle w w']: between [w] and [w'] no map was constructed or
    disposed of, the tokens are the same, and the map the ref holds, if any,
    kept its options, its scroll-zoom setting and its listeners. *)
Definition same_lifecycle (w w' : World) : Prop :=
  constructed w' = constructed w ∧ disposed w' = disposed w
  ∧ mapboxToken w' = mapboxToken w ∧ accessToken w' = accessToken w
  ∧ mapContainer w' = mapContainer w
  ∧ match mapRef w, mapRef w' with
    | None, None => True
    | Some m, Some m' =>
        options m' = options m ∧ scrollZoom m' = scrollZoom m
        ∧ listeners m' = listeners m
    | _, _ => False
    end.

(** Every map constructed so far is either the one the ref holds or has
    been disposed of, and the last call on a disposed map was [remove]. *)
Definition maps_accounted (w : World) : Prop :=
  constructed w = (length (disposed w) + live_maps w)%nat
  ∧ Forall (λ m, last (calls m) = Some CallRemove) (disposed w).

(** The ref holds a map only while the token in memory is truthy, and that
    map was constructed for this token and is set up as constructed. *)
Definition map_follows_token (w : World) : Prop :=
  mapContainer w = true
  ∧ ∀ m, mapRef w = Some m →
         truthy (mapboxToken w) = true ∧ accessToken w = mapboxToken w
         ∧ configured m.

(** Triggers that neither change the token nor unmount. *)
Definition keeps_token (tr : Trigger) : bool :=
  match tr with
  | ClickSave | SelectVariable _ | SlideTimestep _ | StyleLoad _ => true
  | InputChange _ | ClickClear | Unmount => false
  end.

(** The listener the first effect registers on mount. *)
Definition mount_listener : Listener :=
  {| event := "style.load"; captured_variable := air_temperature;
     captured_timestep := 6 |}.

(** What holds of every world the page can get into: at most one map was
    ever constructed, and none while the token in memory is falsy. *)
Definition one_map_at_most (w : World) : Prop :=
  mapContainer w = true
  ∧ (constructed w ≤ 1)%nat
  ∧ (truthy (mapboxToken w) = false → constructed w = 0%nat ∧ mapRef w = None).

(** [settles w w']: from [w] the component either went on with the same
    map, or an effect threw and the tree was unmounted. *)
Definition settles (w w' : World) : Prop :=
  same_lifecycle w w'
  ∨ ∃ w1, same_lifecycle w w1 ∧ w' = initMapCleanup w1.

(** * Properties *)

(** ** Tile URL builder *)

Section TileUrl.

Example url_temperature_6h :
  buildWeatherTiles air_temperature 6
  = "https://weather.openportguide.de/tiles/actual/air_temperature/6h/{z}/{x}/{y}.png".
Proof. reflexivity. Qed.

Example url_precipitation_72h :
  buildWeatherTiles precipitation_shaded 72
  = "https://weather.openportguide.de/tiles/actual/precipitation_shaded/72h/{z}/{x}/{y}.png".
Proof. reflexivity. Qed.

Lemma every_key_listed (v : VariableKey) : v ∈ VARIABLES.
Proof. destruct v; compute_done. Qed.

Lemma append_cons (c : Ascii.ascii) (s1 s2 : string) :
  String c s1 +:+ s2 = String c (s1 +:+ s2).
Proof. reflexivity. Qed.

Lemma append_length (s1 s2 : string) :
  String.length (s1 +:+ s2) = (String.length s1 + String.length s2)%nat.
Proof.
  induction s1 as [|c s1 IH]; [done|].
  rewrite append_cons. simpl. by rewrite IH.
Qed.

Lemma append_assoc (s1 s2 s3 : string) :
  (s1 +:+ s2) +:+ s3 = s1 +:+ (s2 +:+ s3).
Proof.
  induction s1 as [|c s1 IH]; [done|].
  rewrite !append_cons. by f_equal.
Qed.

Lemma append_cancel_r (s s1 s2 : string) : s1 +:+ s = s2 +:+ s → s1 = s2.
Proof.
  revert s2. induction s1 as [|c s1 IH]; intros [|d s2] E.
  - done.
  - apply (f_equal String.length) in E.
    rewrite !append_length in E. simpl in E. lia.
  - apply (f_equal String.length) in E.
    rewrite !append_length in E. simpl in E. lia.
  - rewrite !append_cons in E. injection E as -> E. f_equal. by apply IH.
Qed.

Lemma buildWeatherTiles_inj_timestep (v : VariableKey) (t1 t2 : Z) :
  buildWeatherTiles v t1 = buildWeatherTiles v t2 → t1 = t2.
Proof.
  unfold buildWeatherTiles, Number_toString. intros E.
  do 3 apply String.app_inj in E.
  apply append_cancel_r in E. by apply pretty_Z_inj in E.
Qed.

(** C1. For each of the three variable keys and each lead-time of
    [TIMESTEPS], the builder returns the service's URL template with
    [{v}] replaced by the key and [{t}] by the decimal lead-time, the [h]
    suffix following it, and [{z}/{x}/{y}] kept as literal text. *)
Theorem buildWeatherTiles_fills_template (v : VariableKey) (t : Z) :
  v ∈ VARIABLES → t ∈ TIMESTEPS →
  buildWeatherTiles v t = template_url v t
  ∧ buildWeatherTiles v t
    = "https://weather.openportguide.de/tiles/actual/" +:+ key v +:+ "/"
        +:+ Number_toString t +:+ "h" +:+ "/{z}/{x}/{y}.png".
Proof.
  intros _ Ht. unfold TIMESTEPS in Ht.
  repeat (apply elem_of_cons in Ht as [-> | Ht]);
    [destruct v; split; vm_compute; reflexivity ..|].
  by apply elem_of_nil in Ht.
Qed.

Lemma buildWeatherTiles_fills_template_witness :
  buildWeatherTiles wind_stream 12
  = "https://weather.openportguide.de/tiles/actual/wind_stream/12h/{z}/{x}/{y}.png".
Proof.
  destruct (buildWeatherTiles_fills_template wind_stream 12) as [_ ->].
  - apply every_key_listed.
  - compute_done.
  - reflexivity.
Defined.

(** C9. The builder is total and neither validates nor clamps the
    lead-time: for every number [t], whatever the type of numbers and the
    language's printing of them, the timestep segment is the printed [t]
    followed by [h], and two lead-times that print differently give
    different URLs. At the integers below 10^21 the printing is the decimal
    numeral: 7 and -1, which are not in [TIMESTEPS], are embedded as they
    are. *)
Theorem buildWeatherTiles_no_validation :
  (∀ (number : Type) (toString : number → string) (v : VariableKey) (t : number),
      buildWeatherTilesWith toString v t
      = "https://weather.openportguide.de/tiles/actual/" +:+ key v +:+ "/"
          +:+ (toString t +:+ "h") +:+ "/{z}/{x}/{y}.png")
  ∧ (∀ (number : Type) (toString : number → string) (v : VariableKey)
       (t1 t2 : number),
      buildWeatherTilesWith toString v t1 = buildWeatherTilesWith toString v t2 →
      toString t1 = toString t2)
  ∧ (∀ (v : VariableKey) (t : Z),
      Z.abs t < 10 ^ 21 →
      buildWeatherTiles v t = buildWeatherTilesWith Number_toString v t)
  ∧ (∀ (v : VariableKey) (t1 t2 : Z),
      Z.abs t1 < 10 ^ 21 → Z.abs t2 < 10 ^ 21 →
      buildWeatherTiles v t1 = buildWeatherTiles v t2 → t1 = t2)
  ∧ buildWeatherTiles air_temperature 7
    = "https://weather.openportguide.de/tiles/actual/air_temperature/7h/{z}/{x}/{y}.png"
  ∧ buildWeatherTiles air_temperature (-1)
    = "https://weather.openportguide.de/tiles/actual/air_temperature/-1h/{z}/{x}/{y}.png"
  ∧ ¬ (7 ∈ TIMESTEPS) ∧ ¬ (-1 ∈ TIMESTEPS).
Proof.
  split; [|split; [|split; [|split; [|split; [|split; [|split]]]]]].
  - intros number toString v t. unfold buildWeatherTilesWith.
    do 3 f_equal. by rewrite append_assoc.
  - intros number toString v t1 t2 E. unfold buildWeatherTilesWith in E.
    do 3 apply String.app_inj in E. by apply append_cancel_r in E.
  - reflexivity.
  - intros v t1 t2 _ _. apply buildWeatherTiles_inj_timestep.
  - reflexivity.
  - reflexivity.
  - compute_done.
  - compute_done.
Qed.

End TileUrl.

(** ** Overlay refresh *)

Section Overlay.

Implicit Types (m : MapboxMap) (w : World) (v : VariableKey) (t : Z).


Lemma find_None_filter_not {A} (P : A → Prop) `{!∀ x, Decision (P x)} (l : list A) :
  find (λ x, bool_decide (P x)) l = None → filter (λ x, ¬ P x) l = l.
Proof.
  induction l as [|x l IH]; simpl; [done|].
  rewrite filter_cons. case_bool_decide; [done|].
  intros E. rewrite decide_True by done. f_equal. by apply IH.
Qed.

Lemma filter_filter_not {A} (P : A → Prop) `{!∀ x, Decision (P x)} (l : list A) :
  filter P (filter (λ x, ¬ P x) l) = [].
Proof.
  induction l as [|x l IH]; [done|].
  rewrite filter_cons. destruct (decide (¬ P x)); [|done].
  rewrite filter_cons. by rewrite decide_False.
Qed.

Lemma filter_not_idemp {A} (P : A → Prop) `{!∀ x, Decision (P x)} (l : list A) :
  filter (λ x, ¬ P x) (filter (λ x, ¬ P x) l) = filter (λ x, ¬ P x) l.
Proof.
  induction l as [|x l IH]; [done|].
  rewrite filter_cons. destruct (decide (¬ P x)); [|done].
  rewrite filter_cons. rewrite decide_True by done. by f_equal.
Qed.

(** One refresh in closed form: it logs [refresh_calls], leaves the map
    those calls produce, and returns normally if the style has loaded. *)
Lemma refresh_overlay_run v t m :
  refresh_overlay v t m
  = (refresh_completion m,
     set_calls (calls m ++ refresh_calls v t m) (replay (refresh_calls v t m) m)).
Proof.
  destruct m as [o srcs lyrs fg ls sz ld cs].
  unfold refresh_overlay, refresh_calls, refresh_completion, mbind, Eff_bind,
    getLayer, getSource, removeLayer, removeSource, addSource, addLayer, call,
    call_on_style, when, mret, Eff_ret, replay, record_call, set_calls.
  cbn [layers sources calls options fog listeners scrollZoom styleLoaded].
  destruct ld;
    (destruct (find _ lyrs) as [l|]; cbn -[filter];
     (destruct (find _ srcs) as [p|]; cbn -[filter]);
     rewrite <- ?app_assoc; reflexivity).
Qed.

Lemma apply_call_set_calls c x m :
  apply_call c (set_calls x m) = set_calls x (apply_call c m).
Proof. destruct c; simpl; try done; by destruct (styleLoaded m). Qed.

Lemma replay_set_calls cs x m : replay cs (set_calls x m) = set_calls x (replay cs m).
Proof.
  revert m. induction cs as [|c cs IH]; intros m; [done|].
  simpl. by rewrite apply_call_set_calls, IH.
Qed.




(** Where one refresh leaves the registries. *)
Lemma refresh_sources v t m :
  styleLoaded m = true →
  sources (replay (refresh_calls v t m) m)
  = filter (λ p, p.1 ≠ WEATHER_SOURCE_ID) (sources m)
      ++ [(WEATHER_SOURCE_ID, weather_source v t)].
Proof.
  intros Hld. destruct m as [o srcs lyrs fg ls sz ld cs]. simpl in Hld. subst ld.
  unfold refresh_calls. simpl.
  destruct (find _ lyrs); destruct (find _ srcs) eqn:E; simpl; try done.
  all: by rewrite (find_None_filter_not _ _ E).
Qed.

Lemma refresh_layers v t m :
  styleLoaded m = true →
  layers (replay (refresh_calls v t m) m)
  = filter (λ l, layer_id l ≠ WEATHER_LAYER_ID) (layers m) ++ [weather_layer].
Proof.
  intros Hld. destruct m as [o srcs lyrs fg ls sz ld cs]. simpl in Hld. subst ld.
  unfold refresh_calls. simpl.
  destruct (find _ lyrs) eqn:E; destruct (find _ srcs); simpl; try done.
  all: by rewrite (find_None_filter_not _ _ E).
Qed.

Lemma refresh_frame v t m :
  let m' := replay (refresh_calls v t m) m in
  options m' = options m ∧ fog m' = fog m ∧ listeners m' = listeners m
  ∧ scrollZoom m' = scrollZoom m.
Proof.
  destruct m as [o srcs lyrs fg ls sz ld cs]. unfold refresh_calls. simpl.
  by destruct ld; destruct (find _ lyrs); destruct (find _ srcs).
Qed.

Lemma refresh_styleLoaded v t m :
  styleLoaded (replay (refresh_calls v t m) m) = styleLoaded m.
Proof.
  destruct m as [o srcs lyrs fg ls sz ld cs]. unfold refresh_calls. simpl.
  by destruct ld; destruct (find _ lyrs); destruct (find _ srcs).
Qed.



Lemma addOrUpdateWeatherLayer_run v t w m :
  mapRef w = Some m →
  addOrUpdateWeatherLayer v t w
  = (refresh_completion m,
     set_mapRef
       (Some (set_calls (calls m ++ refresh_calls v t m)
                        (replay (refresh_calls v t m) m))) w).
Proof.
  intros E. unfold addOrUpdateWeatherLayer. by rewrite E, refresh_overlay_run.
Qed.

Lemma addOrUpdateWeatherLayer_live v t w m :
  mapRef w = Some m → styleLoaded m = true →
  addOrUpdateWeatherLayer v t w
  = (Normal (),
     set_mapRef
       (Some (set_calls (calls m ++ refresh_calls v t m)
                        (replay (refresh_calls v t m) m))) w).
Proof.
  intros E Hld. rewrite (addOrUpdateWeatherLayer_run v t w m E).
  unfold refresh_completion. by rewrite Hld.
Qed.






Example refresh_calls_on_existing_overlay :
  refresh_calls wind_stream 12 <$> mapRef styled_world
  = Some [ CallGetLayer WEATHER_LAYER_ID; CallRemoveLayer WEATHER_LAYER_ID;
           CallGetSource WEATHER_SOURCE_ID; CallRemoveSource WEATHER_SOURCE_ID;
           CallAddSource WEATHER_SOURCE_ID (weather_source wind_stream 12);
           CallAddLayer weather_layer ].
Proof. vm_compute. reflexivity. Qed.

Lemma refresh_overlay_sources v t m :
  styleLoaded m = true →
  filter (λ p, p.1 = WEATHER_SOURCE_ID) (sources (replay (refresh_calls v t m) m))
  = [(WEATHER_SOURCE_ID, weather_source v t)].
Proof. intros H. by rewrite refresh_sources, filter_app, filter_filter_not. Qed.

Lemma refresh_overlay_layers v t m :
  styleLoaded m = true →
  filter (λ l, layer_id l = WEATHER_LAYER_ID) (layers (replay (refresh_calls v t m) m))
  = [weather_layer].
Proof. intros H. by rewrite refresh_layers, filter_app, filter_filter_not. Qed.

(** The look of the map after a refresh depends on the look before it
    only through what does not carry the overlay IDs. *)
Lemma refresh_appearance v t m :
  styleLoaded m = true →
  appearance (replay (refresh_calls v t m) m)
  = {| options := options m;
       sources := filter (λ p, p.1 ≠ WEATHER_SOURCE_ID) (sources m)
                    ++ [(WEATHER_SOURCE_ID, weather_source v t)];
       layers := filter (λ l, layer_id l ≠ WEATHER_LAYER_ID) (layers m)
                   ++ [weather_layer];
       fog := fog m; listeners := listeners m; scrollZoom := scrollZoom m;
       styleLoaded := true; calls := [] |}.
Proof.
  intros Hld.
  pose proof (refresh_frame v t m) as (Ho & Hf & Hl & Hz).
  pose proof (refresh_styleLoaded v t m) as Hk. rewrite Hld in Hk.
  unfold appearance, set_calls.
  by rewrite refresh_sources, refresh_layers, Ho, Hf, Hl, Hz, Hk.
Qed.

Lemma weather_source_filtered v t :
  filter (λ p : string * RasterSource, p.1 ≠ WEATHER_SOURCE_ID)
         [(WEATHER_SOURCE_ID, weather_source v t)] = [].
Proof. reflexivity. Qed.

Lemma weather_layer_filtered :
  filter (λ l, layer_id l ≠ WEATHER_LAYER_ID) [weather_layer] = [].
Proof. reflexivity. Qed.

Lemma refresh_appearance_twice v t m :
  styleLoaded m = true →
  let m1 := replay (refresh_calls v t m) m in
  appearance (replay (refresh_calls v t m1) m1) = appearance m1.
Proof.
  intros Hld m1.
  assert (Hld1 : styleLoaded m1 = true)
    by (unfold m1; by rewrite refresh_styleLoaded).
  rewrite (refresh_appearance v t m1 Hld1).
  pose proof (refresh_frame v t m) as (Ho & Hf & Hl & Hz).
  fold m1 in Ho, Hf, Hl, Hz. rewrite Ho, Hf, Hl, Hz.
  unfold m1. rewrite (refresh_appearance v t m Hld).
  rewrite refresh_sources, refresh_layers, !filter_app, !filter_not_idemp by done.
  rewrite weather_source_filtered, weather_layer_filtered, !app_nil_r.
  reflexivity.
Qed.

(** Where a token has been typed and the style has not loaded yet, the
    refresh throws in [addSource] and adds nothing. *)
Example refresh_before_style_load :
  let r := addOrUpdateWeatherLayer wind_stream 12 typed_token_world in
  r.1 = Throw "Style is not done loading"
  ∧ (calls <$> mapRef r.2)
    = Some [ CallAddControl "top-right";
             CallOn {| event := "style.load"; captured_variable := air_temperature;
                       captured_timestep := 6 |};
             CallScrollZoomDisable;
             CallGetLayer WEATHER_LAYER_ID; CallGetSource WEATHER_SOURCE_ID;
             CallAddSource WEATHER_SOURCE_ID (weather_source wind_stream 12) ].
Proof. vm_compute. auto. Qed.

(** C3, as stated, fails: on the live map of [typed_token_world], whose
    style has not loaded, both refreshes throw and no overlay source or
    layer exists afterwards. *)
Lemma refresh_twice_before_style_load :
  let once := addOrUpdateWeatherLayer wind_stream 12 typed_token_world in
  let twice := addOrUpdateWeatherLayer wind_stream 12 once.2 in
  defined (mapRef typed_token_world) = true
  ∧ once.1 = Throw STYLE_NOT_LOADED
  ∧ twice.1 = Throw STYLE_NOT_LOADED
  ∧ (overlay_sources <$> mapRef twice.2) = Some 0%nat
  ∧ (overlay_layers <$> mapRef twice.2) = Some 0%nat.
Proof. vm_compute. auto 10. Qed.

(** C3, amended. On a live map whose style has finished loading,
    whatever its state otherwise, refreshing twice with the same variable
    and lead-time leaves the map looking as after one refresh, and the rest
    of the world as it was: there is exactly one overlay source and one
    overlay layer, the layer refers to the overlay source, and the source's
    only tile URL is the one built from that variable and lead-time. Only
    the call log tells the two apart. *)
Theorem refresh_idempotent v t w m :
  mapRef w = Some m →
  styleLoaded m = true →
  let once := addOrUpdateWeatherLayer v t w in
  let twice := addOrUpdateWeatherLayer v t once.2 in
  ∃ m1 m2 : MapboxMap,
    once = (Normal (), set_mapRef (Some m1) w)
    ∧ twice = (Normal (), set_mapRef (Some m2) w)
    ∧ appearance m2 = appearance m1
    ∧ filter (λ p, p.1 = WEATHER_SOURCE_ID) (sources m2)
      = [(WEATHER_SOURCE_ID, weather_source v t)]
    ∧ filter (λ l, layer_id l = WEATHER_LAYER_ID) (layers m2) = [weather_layer]
    ∧ overlay_sources m2 = 1%nat ∧ overlay_layers m2 = 1%nat
    ∧ source weather_layer = WEATHER_SOURCE_ID
    ∧ tiles (weather_source v t) = [buildWeatherTiles v t]
    ∧ calls m2 = calls m1 ++ refresh_calls v t m1.
Proof.
  intros Hm Hld once twice.
  set (m1 := set_calls (calls m ++ refresh_calls v t m)
                       (replay (refresh_calls v t m) m)).
  set (m2 := set_calls (calls m1 ++ refresh_calls v t m1)
                       (replay (refresh_calls v t m1) m1)).
  assert (Hld1 : styleLoaded m1 = true)
    by exact (eq_trans (refresh_styleLoaded v t m) Hld).
  assert (Honce : once = (Normal (), set_mapRef (Some m1) w))
    by apply (addOrUpdateWeatherLayer_live v t w m Hm Hld).
  assert (Htwice : twice = (Normal (), set_mapRef (Some m2) w)).
  { unfold twice. rewrite Honce.
    exact (addOrUpdateWeatherLayer_live v t (set_mapRef (Some m1) w) m1
             eq_refl Hld1). }
  assert (Hs : filter (λ p, p.1 = WEATHER_SOURCE_ID) (sources m2)
               = [(WEATHER_SOURCE_ID, weather_source v t)])
    by apply (refresh_overlay_sources v t m1 Hld1).
  assert (Hl : filter (λ l, layer_id l = WEATHER_LAYER_ID) (layers m2)
               = [weather_layer])
    by apply (refresh_overlay_layers v t m1 Hld1).
  exists m1, m2. repeat split; try done.
  - change (appearance (replay (refresh_calls v t m1) m1)
            = appearance (replay (refresh_calls v t m) m)).
    change (refresh_calls v t m1)
      with (refresh_calls v t (replay (refresh_calls v t m) m)).
    unfold m1. rewrite replay_set_calls.
    by apply refresh_appearance_twice.
  - unfold overlay_sources. by rewrite Hs.
  - unfold overlay_layers. by rewrite Hl.
Qed.

Lemma refresh_idempotent_witness :
  ∃ m1 m2 : MapboxMap,
    addOrUpdateWeatherLayer wind_stream 12 loaded_map_world
    = (Normal (), set_mapRef (Some m1) loaded_map_world)
    ∧ addOrUpdateWeatherLayer wind_stream 12
        (addOrUpdateWeatherLayer wind_stream 12 loaded_map_world).2
      = (Normal (), set_mapRef (Some m2) loaded_map_world)
    ∧ appearance m2 = appearance m1
    ∧ overlay_sources m2 = 1%nat ∧ overlay_layers m2 = 1%nat.
Proof.
  destruct (refresh_idempotent wind_stream 12 loaded_map_world
              (set_styleLoaded true (new_Map MAP_OPTIONS)) eq_refl eq_refl)
    as (m1 & m2 & H1 & H2 & Ha & _ & _ & Hs & Hl & _).
  exists m1, m2. auto.
Defined.

(** C4. With no map held by the ref, the refresh returns at once: it
    completes normally and the world, in which every map call would have
    left a trace, is untouched. *)
Theorem refresh_without_map v t w :
  mapRef w = None → addOrUpdateWeatherLayer v t w = (Normal (), w).
Proof. intros E. unfold addOrUpdateWeatherLayer. by rewrite E. Qed.

Lemma refresh_without_map_witness :
  addOrUpdateWeatherLayer precipitation_shaded 48 (initial_state ∅)
  = (Normal (), initial_state ∅).
Proof. apply refresh_without_map. reflexivity. Defined.

End Overlay.

(** ** Style-load listener *)

Section StyleLoad.

Implicit Types (m : MapboxMap) (w : World) (l : Listener).

(** Whatever [setFog] does, the listener goes on to the refresh. *)
Lemma styleLoadHandler_run (setFog : FogSpec → SDK unit) l w m :
  mapRef w = Some m →
  styleLoadHandler setFog l w
  = addOrUpdateWeatherLayer (captured_variable l) (captured_timestep l)
      (set_mapRef (Some (setFog FOG m).2) w).
Proof.
  intros Hm.
  unfold styleLoadHandler, mbind, Eff_bind, on_map, try_catch. rewrite Hm.
  by destruct (setFog FOG m) as [[[]|e] m'].
Qed.

Example fog_error_on_style_load :
  let w := fire (StyleLoad (Some "fog unsupported")) typed_token_world in
  (fog <$> mapRef w) = Some None
  ∧ (overlay_sources <$> mapRef w) = Some 1%nat
  ∧ (overlay_layers <$> mapRef w) = Some 1%nat.
Proof. vm_compute. auto. Qed.

(** C8. In the [style.load] listener a failure of [setFog], whatever the
    SDK does in it, is caught and dropped: the listener completes
    normally and is the overlay refresh run on the map as the fog attempt
    left it. A throwing [setFog] and an applying one end in the same
    world, log included, up to the map's fog setting, which the failed
    attempt leaves as it was. The listener runs when [style.load] fires:
    the style of the map has loaded, and is still loaded after the fog
    attempt. *)
Theorem fog_failure_is_discarded (setFog : FogSpec → SDK unit) (e : string) l w m :
  mapRef w = Some m →
  styleLoaded m = true →
  styleLoaded (setFog FOG m).2 = true →
  styleLoadHandler setFog l w
  = addOrUpdateWeatherLayer (captured_variable l) (captured_timestep l)
      (set_mapRef (Some (setFog FOG m).2) w)
  ∧ (styleLoadHandler setFog l w).1 = Normal ()
  ∧ ∃ m' : MapboxMap,
      styleLoadHandler setFog_applies l w = (Normal (), set_mapRef (Some m') w)
      ∧ styleLoadHandler (setFog_throws e) l w
        = (Normal (), set_mapRef (Some (set_fog (fog m) m')) w)
      ∧ fog m' = Some FOG
      ∧ calls m'
        = calls m ++ [CallSetFog FOG]
            ++ refresh_calls (captured_variable l) (captured_timestep l) m.
Proof.
  intros Hm Hld Hfog. split; [by apply styleLoadHandler_run|]. split.
  - rewrite (styleLoadHandler_run setFog l w m Hm).
    by rewrite (addOrUpdateWeatherLayer_live _ _ (set_mapRef _ w)
                  (setFog FOG m).2 eq_refl Hfog).
  - rewrite !(styleLoadHandler_run _ l w m Hm).
    rewrite (addOrUpdateWeatherLayer_live _ _ (set_mapRef _ w)
               (setFog_applies FOG m).2 eq_refl Hld).
    rewrite (addOrUpdateWeatherLayer_live _ _ (set_mapRef _ w)
               (setFog_throws e FOG m).2 eq_refl Hld).
    eexists. split; [reflexivity|].
    destruct m as [o srcs lyrs fg ls sz ld cs]. simpl in Hld. subst ld.
    unfold refresh_calls. cbn -[filter find].
    destruct (find _ lyrs); destruct (find _ srcs); cbn -[filter];
      rewrite <- ?app_assoc; repeat split.
Qed.

Lemma fog_failure_is_discarded_witness :
  (styleLoadHandler (setFog_throws "fog unsupported")
     {| event := "style.load"; captured_variable := wind_stream;
        captured_timestep := 12 |} loaded_map_world).1
  = Normal ().
Proof.
  apply (fog_failure_is_discarded (setFog_throws "fog unsupported") "" _
           loaded_map_world (set_styleLoaded true (new_Map MAP_OPTIONS))
           eq_refl eq_refl eq_refl).
Defined.

End StyleLoad.

(** ** Token gate *)

Section TokenGate.

Implicit Types (w : World) (storage : gmap string string).

Lemma truthy_false (tok : option string) :
  truthy tok = false ↔ tok = None ∨ tok = Some "".
Proof.
  destruct tok as [[|c s]|]; simpl; split; intros H; auto;
    try discriminate; destruct H; discriminate.
Qed.

Lemma initMapEffect_without_token w :
  truthy (mapboxToken w) = false → initMapEffect w = w.
Proof.
  intros E. unfold initMapEffect. rewrite E. simpl.
  by rewrite orb_true_r.
Qed.

Lemma mount_without_token storage :
  truthy (storage !! TOKEN_KEY) = false →
  mount storage = set_mapContainer true (initial_state storage).
Proof.
  intros E. unfold mount.
  rewrite initMapEffect_without_token by done. reflexivity.
Qed.

(** With nothing in local storage the page shows the token form, and the
    map container, the control panel and the accent next to it. *)
Example render_without_token :
  render (mount ∅)
  = [ TokenForm [ Heading "Enter Mapbox public token";
                  TextField "pk.eyJ1Ijo..." "";
                  Button "Clear" ClickClear;
                  Button "Save token" ClickSave ];
      MapContainerDiv;
      Controls {| selected := air_temperature;
                  choices := [ ("air_temperature", "Temperature");
                               ("wind_stream", "Wind Stream");
                               ("precipitation_shaded", "Precipitation") ];
                  lead_time := "6h"; slider_value := 6;
                  slider_min := 0; slider_max := 72; slider_step := 6 |};
      AmbientAccent ].
Proof. vm_compute. reflexivity. Qed.

(** Typing a character into the field makes the token in memory
    non-empty: the form goes away and a map is constructed, with nothing
    stored yet. The gate is therefore stated on the token in memory. *)
Example typing_opens_the_gate :
  let w := fire (InputChange "p") (mount ∅) in
  localStorage w !! TOKEN_KEY = None
  ∧ constructed w = 1%nat
  ∧ accessToken w = Some "p"
  ∧ filter (λ e, is_token_form e = true) (render w) = [].
Proof. vm_compute. auto. Qed.

(** C5, as stated, fails: with no token stored, the token form is not the
    only thing rendered. *)
Lemma token_form_not_rendered_alone :
  truthy ((∅ : gmap string string) !! TOKEN_KEY) = false
  ∧ ¬ (∀ e, e ∈ render (mount ∅) → is_token_form e = true).
Proof.
  split; [reflexivity|]. intros H.
  specialize (H MapContainerDiv). rewrite render_without_token in H.
  discriminate H. apply list_elem_of_In. simpl. auto.
Qed.

(** C5, amended. Whenever the token is absent or empty -- as read from
    local storage on mount, or as held in memory later -- the widget
    renders the token form (text field, Clear and Save token buttons)
    followed by the map container, the control panel and the accent, which
    are always rendered, and constructs no map: on mount the ref stays
    empty, no map has been constructed and the SDK's access token is
    unset, and the map effect leaves any such world as it is. *)
Theorem token_gate storage w :
  truthy (storage !! TOKEN_KEY) = false →
  truthy (mapboxToken w) = false →
  (render (mount storage)
   = [ TokenForm [ Heading "Enter Mapbox public token";
                   TextField "pk.eyJ1Ijo..." "";
                   Button "Clear" ClickClear;
                   Button "Save token" ClickSave ];
       MapContainerDiv; control_panel (mount storage); AmbientAccent ]
   ∧ mapRef (mount storage) = None
   ∧ constructed (mount storage) = 0%nat
   ∧ accessToken (mount storage) = None)
  ∧ (render w = [token_form w; MapContainerDiv; control_panel w; AmbientAccent]
     ∧ initMapEffect w = w).
Proof.
  intros Hs Hw. split; [|split].
  - rewrite mount_without_token by done.
    unfold render, token_form. simpl. rewrite Hs. simpl.
    apply truthy_false in Hs as [-> | ->]; by repeat split.
  - unfold render. by rewrite Hw.
  - by apply initMapEffect_without_token.
Qed.

Lemma token_gate_witness :
  mapRef (mount {[ TOKEN_KEY := "" ]}) = None
  ∧ constructed (mount {[ TOKEN_KEY := "" ]}) = 0%nat
  ∧ initMapEffect (clearToken token_world) = clearToken token_world.
Proof.
  destruct (token_gate {[ TOKEN_KEY := "" ]} (clearToken token_world))
    as [(_ & Hr & Hc & _) [_ Hi]].
  - reflexivity.
  - reflexivity.
  - auto.
Defined.

(** *** What reaches the browser *)

Lemma untouched_refl w : untouched w w.
Proof. by split. Qed.

Lemma untouched_trans w1 w2 w3 : untouched w1 w2 → untouched w2 w3 → untouched w1 w3.
Proof. intros [? ?] [? ?]. split; congruence. Qed.

Lemma addOrUpdateWeatherLayer_untouched v t w :
  untouched w (addOrUpdateWeatherLayer v t w).2.
Proof.
  unfold addOrUpdateWeatherLayer. destruct (mapRef w); [|apply untouched_refl].
  by destruct (refresh_overlay v t m).
Qed.

Lemma styleLoadHandler_untouched setFog l w :
  untouched w (styleLoadHandler setFog l w).2.
Proof.
  unfold styleLoadHandler, mbind, Eff_bind, on_map.
  destruct (mapRef w) as [m|].
  - destruct (try_catch _ _ m) as [[[]|e] m'].
    + eapply untouched_trans; [|apply addOrUpdateWeatherLayer_untouched]. by split.
    + by split.
  - apply addOrUpdateWeatherLayer_untouched.
Qed.

Lemma initMapEffect_untouched w : untouched w (initMapEffect w).
Proof. unfold initMapEffect. by destruct (_ || _). Qed.

Lemma initMapCleanup_untouched w : untouched w (initMapCleanup w).
Proof. unfold initMapCleanup. by destruct (mapRef w). Qed.

Lemma afterTokenRender_untouched prev w : untouched w (afterTokenRender prev w).
Proof.
  unfold afterTokenRender. case_decide; [apply untouched_refl|].
  eapply untouched_trans; [apply initMapCleanup_untouched|apply initMapEffect_untouched].
Qed.

Lemma updateLayerEffect_untouched w : untouched w (updateLayerEffect w).2.
Proof.
  unfold updateLayerEffect. destruct (mapRef w); [|apply untouched_refl].
  apply addOrUpdateWeatherLayer_untouched.
Qed.

Lemma after_effect_untouched w (r : Completion unit * World) :
  untouched w r.2 → untouched w (after_effect r).
Proof.
  intros H. unfold after_effect. destruct r.1; [done|].
  eapply untouched_trans; [exact H|apply initMapCleanup_untouched].
Qed.

Lemma afterInputsRender_untouched v t w : untouched w (afterInputsRender v t w).
Proof.
  unfold afterInputsRender. case_decide; [apply untouched_refl|].
  apply after_effect_untouched, updateLayerEffect_untouched.
Qed.

Lemma fire_untouched (tr : Trigger) w : tr ≠ ClickSave → untouched w (fire tr w).
Proof.
  intros Hne. destruct tr; simpl; try done.
  - eapply untouched_trans; [|apply afterTokenRender_untouched]. by split.
  - eapply untouched_trans; [|apply afterTokenRender_untouched]. by split.
  - eapply untouched_trans; [|apply afterInputsRender_untouched]. by split.
  - eapply untouched_trans; [|apply afterInputsRender_untouched]. by split.
  - destruct (mapRef w) as [m|]; [|apply untouched_refl].
    generalize (filter (λ l, event l = "style.load") (listeners m)).
    intros ls. assert (G : ∀ w', untouched w w' →
      untouched w (foldl (λ w l, (styleLoadHandler (setFog_of fog_error) l w).2) w' ls)).
    { induction ls as [|l ls IH]; intros w' H; simpl; [done|].
      apply IH. eapply untouched_trans; [exact H|apply styleLoadHandler_untouched]. }
    apply G. by split.
  - apply initMapCleanup_untouched.
Qed.

Lemma mount_untouched storage :
  localStorage (mount storage) = storage ∧ browser (mount storage) = [].
Proof.
  unfold mount.
  destruct (after_effect_untouched _ _
              (updateLayerEffect_untouched
                 (initMapEffect (set_mapContainer true (initial_state storage)))))
    as [-> ->].
  destruct (initMapEffect_untouched (set_mapContainer true (initial_state storage)))
    as [-> ->].
  by split.
Qed.

Lemma saveToken_non_empty w tok :
  mapboxToken w = Some tok → tok ≠ "" →
  saveToken w
  = set_browser (browser w ++ [SetItem TOKEN_KEY tok; Reload])
      (set_localStorage (<[TOKEN_KEY := tok]> (localStorage w)) w).
Proof.
  intros E Hne. unfold saveToken. rewrite E. destruct tok as [|c tok]; [done|].
  unfold set_browser, set_localStorage. simpl. by rewrite <- app_assoc.
Qed.

Lemma saveToken_empty w :
  mapboxToken w = None ∨ mapboxToken w = Some "" → saveToken w = w.
Proof. intros [E|E]; unfold saveToken; by rewrite E. Qed.

(** C6. With a non-empty token in memory, Save stores that token under
    [MAPBOX_TOKEN] and then reloads the page, and does nothing else.
    Nothing but Save writes to local storage or reloads: mounting does
    not, and no other trigger does, in any world. *)
Theorem save_stores_then_reloads w (tok : string) :
  mapboxToken w = Some tok → tok ≠ "" →
  fire ClickSave w
  = set_browser (browser w ++ [SetItem TOKEN_KEY tok; Reload])
      (set_localStorage (<[TOKEN_KEY := tok]> (localStorage w)) w)
  ∧ localStorage (fire ClickSave w) !! TOKEN_KEY = Some tok
  ∧ (∀ (tr : Trigger) w',
       (localStorage (fire tr w'), browser (fire tr w'))
       = match tr with
         | ClickSave => (localStorage (saveToken w'), browser (saveToken w'))
         | _ => (localStorage w', browser w')
         end)
  ∧ (∀ storage, localStorage (mount storage) = storage ∧ browser (mount storage) = []).
Proof.
  intros E Hne. split; [|split; [|split]].
  - by apply saveToken_non_empty.
  - simpl. rewrite (saveToken_non_empty w tok E Hne). simpl.
    apply lookup_insert_eq.
  - intros tr w'.
    assert (tr = ClickSave ∨ tr ≠ ClickSave) as [->|Hn]
      by (destruct tr; (by left) || (by right)); [done|].
    destruct (fire_untouched tr w' Hn) as [-> ->]. by destruct tr.
  - apply mount_untouched.
Qed.

Lemma save_stores_then_reloads_witness :
  browser (fire ClickSave (changeToken "pk.demo" (mount ∅)))
  = [SetItem TOKEN_KEY "pk.demo"; Reload]
  ∧ localStorage (fire ClickSave (changeToken "pk.demo" (mount ∅))) !! TOKEN_KEY
    = Some "pk.demo".
Proof.
  destruct (save_stores_then_reloads (changeToken "pk.demo" (mount ∅)) "pk.demo")
    as (Hf & Hl & _).
  - reflexivity.
  - discriminate.
  - split; [|exact Hl]. rewrite Hf. reflexivity.
Defined.

(** C10. With a null or empty token in memory, Save does nothing at all:
    the world after it, local storage and the log of writes and reloads
    included, is the world before it. *)
Theorem save_without_token w :
  mapboxToken w = None ∨ mapboxToken w = Some "" →
  saveToken w = w ∧ fire ClickSave w = w.
Proof. intros H. split; by apply saveToken_empty. Qed.

Lemma save_without_token_witness :
  saveToken (mount ∅) = mount ∅
  ∧ saveToken (clearToken token_world) = clearToken token_world.
Proof.
  split.
  - apply (save_without_token (mount ∅)). left. reflexivity.
  - apply (save_without_token (clearToken token_world)). right. reflexivity.
Defined.

(** C7. Clear changes the token held in memory, and only that, to the
    empty string: putting the old token back gives the old world. The
    form is then rendered with an empty field. Also with the renders and
    effects that follow, local storage is as before and nothing is written
    or reloaded, so that a later mount reads the persisted token back. *)
Theorem clear_keeps_persisted_token w :
  mapboxToken (clearToken w) = Some ""
  ∧ setMapboxToken (mapboxToken w) (clearToken w) = w
  ∧ localStorage (clearToken w) = localStorage w
  ∧ render (clearToken w)
    = [ TokenForm [ Heading "Enter Mapbox public token";
                    TextField "pk.eyJ1Ijo..." "";
                    Button "Clear" ClickClear;
                    Button "Save token" ClickSave ];
        MapContainerDiv; control_panel w; AmbientAccent ]
  ∧ mapboxToken (fire ClickClear w) = Some ""
  ∧ localStorage (fire ClickClear w) = localStorage w
  ∧ browser (fire ClickClear w) = browser w
  ∧ mapboxToken (initial_state (localStorage (fire ClickClear w)))
    = localStorage w !! TOKEN_KEY.
Proof.
  assert (Hu : untouched w (fire ClickClear w)) by by apply fire_untouched.
  destruct Hu as [Hl Hb].
  repeat split; try done.
  - by destruct w.
  - simpl. unfold afterTokenRender. case_decide; [done|].
    unfold initMapEffect.
    replace (truthy (mapboxToken (initMapCleanup (clearToken w)))) with false.
    + rewrite orb_true_r. unfold initMapCleanup. by destruct (mapRef _).
    + unfold initMapCleanup. by destruct (mapRef _).
  - change (localStorage (fire ClickClear w) !! TOKEN_KEY
            = localStorage w !! TOKEN_KEY).
    by rewrite Hl.
Qed.

End TokenGate.

(** * Further properties of the component *)

(** ** The tile URL identifies the selection *)

Section TileUrlMore.

Lemma key_slash_inj (v1 v2 : VariableKey) (r1 r2 : string) :
  key v1 +:+ "/" +:+ r1 = key v2 +:+ "/" +:+ r2 → v1 = v2 ∧ r1 = r2.
Proof.
  destruct v1, v2; unfold key; intros E;
    repeat (rewrite !append_cons in E; injection E as E);
    try discriminate; by split.
Qed.

(** X1. The tile URL determines both the variable and the lead-time it was
    built from: two selections share a URL only if they are the same. *)
Theorem tile_url_determines_selection (v1 v2 : VariableKey) (t1 t2 : Z) :
  buildWeatherTiles v1 t1 = buildWeatherTiles v2 t2 → v1 = v2 ∧ t1 = t2.
Proof.
  unfold buildWeatherTiles. intros E. apply String.app_inj in E.
  apply key_slash_inj in E as [-> E]. split; [done|].
  apply append_cancel_r in E. by apply pretty_Z_inj in E.
Qed.

Lemma tile_url_determines_selection_witness : wind_stream = wind_stream ∧ 12 = 12.
Proof. apply tile_url_determines_selection. reflexivity. Defined.

End TileUrlMore.

(** ** What the refresh leaves alone *)

Section RefreshFrame.

Implicit Types (m : MapboxMap) (w : World) (v : VariableKey) (t : Z).

(** X2. On a live map whose style has loaded the refresh completes
    normally, keeps every source and layer that does not carry an overlay
    ID, in their order, puts the new overlay source and the overlay layer
    last (the layer on top), and leaves the fog, the listeners, the options
    and the scroll-zoom setting as they were. *)
Theorem refresh_keeps_the_rest v t w m :
  mapRef w = Some m →
  styleLoaded m = true →
  ∃ m' : MapboxMap,
    addOrUpdateWeatherLayer v t w = (Normal (), set_mapRef (Some m') w)
    ∧ sources m'
      = filter (λ p, p.1 ≠ WEATHER_SOURCE_ID) (sources m)
          ++ [(WEATHER_SOURCE_ID, weather_source v t)]
    ∧ layers m'
      = filter (λ l, layer_id l ≠ WEATHER_LAYER_ID) (layers m) ++ [weather_layer]
    ∧ fog m' = fog m ∧ listeners m' = listeners m
    ∧ options m' = options m ∧ scrollZoom m' = scrollZoom m
    ∧ styleLoaded m' = true.
Proof.
  intros Hm Hld. eexists. split; [by apply addOrUpdateWeatherLayer_live|].
  pose proof (refresh_frame v t m) as (Ho & Hf & Hl & Hz).
  pose proof (refresh_sources v t m Hld) as Hs.
  pose proof (refresh_layers v t m Hld) as Hy.
  pose proof (eq_trans (refresh_styleLoaded v t m) Hld) as Hk.
  by repeat split.
Qed.

Lemma refresh_keeps_the_rest_witness :
  ∃ m' : MapboxMap,
    addOrUpdateWeatherLayer wind_stream 12 loaded_map_world
    = (Normal (), set_mapRef (Some m') loaded_map_world)
    ∧ layers m' = [weather_layer] ∧ scrollZoom m' = true.
Proof.
  destruct (refresh_keeps_the_rest wind_stream 12 loaded_map_world
              (set_styleLoaded true (new_Map MAP_OPTIONS)) eq_refl eq_refl)
    as (m' & H & _ & Hl & _ & _ & _ & Hz & _).
  exists m'. auto.
Defined.

End RefreshFrame.

(** ** Life cycle of the map *)

Section Lifecycle.

Implicit Types (m : MapboxMap) (w : World) (tr : Trigger) (v : VariableKey) (t : Z).

Lemma same_lifecycle_refl w : same_lifecycle w w.
Proof. unfold same_lifecycle. by destruct (mapRef w). Qed.

Lemma same_lifecycle_trans w1 w2 w3 :
  same_lifecycle w1 w2 → same_lifecycle w2 w3 → same_lifecycle w1 w3.
Proof.
  unfold same_lifecycle.
  intros (? & ? & ? & ? & ? & Ha) (? & ? & ? & ? & ? & Hb).
  repeat (split; [congruence|]).
  destruct (mapRef w1), (mapRef w2), (mapRef w3); try done.
  destruct Ha as (? & ? & ?), Hb as (? & ? & ?). repeat split; congruence.
Qed.

Lemma addOrUpdateWeatherLayer_same_lifecycle v t w :
  same_lifecycle w (addOrUpdateWeatherLayer v t w).2.
Proof.
  destruct (mapRef w) as [m|] eqn:E.
  - rewrite (addOrUpdateWeatherLayer_run v t w m E).
    pose proof (refresh_frame v t m) as (Ho & _ & Hl & Hz).
    unfold same_lifecycle. simpl. rewrite E. by repeat split.
  - unfold addOrUpdateWeatherLayer. rewrite E. apply same_lifecycle_refl.
Qed.

Lemma styleLoadHandler_same_lifecycle fog_error (l : Listener) w :
  same_lifecycle w (styleLoadHandler (setFog_of fog_error) l w).2.
Proof.
  destruct (mapRef w) as [m|] eqn:E.
  - rewrite (styleLoadHandler_run _ l w m E).
    eapply same_lifecycle_trans; [|apply addOrUpdateWeatherLayer_same_lifecycle].
    unfold same_lifecycle. rewrite E. by destruct fog_error.
  - unfold styleLoadHandler, mbind, Eff_bind, on_map. rewrite E.
    apply addOrUpdateWeatherLayer_same_lifecycle.
Qed.

Lemma updateLayerEffect_same_lifecycle w : same_lifecycle w (updateLayerEffect w).2.
Proof.
  unfold updateLayerEffect. destruct (mapRef w) eqn:E.
  - apply addOrUpdateWeatherLayer_same_lifecycle.
  - apply same_lifecycle_refl.
Qed.

Lemma after_effect_settles w (r : Completion unit * World) :
  same_lifecycle w r.2 → settles w (after_effect r).
Proof.
  intros H. unfold after_effect, settles. destruct r.1; [by left|].
  right. by exists r.2.
Qed.

Lemma afterInputsRender_settles v t w : settles w (afterInputsRender v t w).
Proof.
  unfold afterInputsRender. case_decide; [left; apply same_lifecycle_refl|].
  apply after_effect_settles, updateLayerEffect_same_lifecycle.
Qed.

Lemma settles_after w1 w2 w3 : same_lifecycle w1 w2 → settles w2 w3 → settles w1 w3.
Proof.
  intros H [H'|(w' & H' & ->)].
  - left. by eapply same_lifecycle_trans.
  - right. exists w'. split; [by eapply same_lifecycle_trans|done].
Qed.

Lemma saveToken_same_lifecycle w : same_lifecycle w (saveToken w).
Proof.
  unfold saveToken. destruct (mapboxToken w) as [[|c tok]|];
    try apply same_lifecycle_refl.
  unfold same_lifecycle. simpl. by destruct (mapRef w).
Qed.

Lemma styleLoad_same_lifecycle fog_error (ls : list Listener) w :
  same_lifecycle w
    (foldl (λ w l, (styleLoadHandler (setFog_of fog_error) l w).2) w ls).
Proof.
  revert w. induction ls as [|l ls IH]; intros w; simpl.
  - apply same_lifecycle_refl.
  - eapply same_lifecycle_trans; [apply styleLoadHandler_same_lifecycle|apply IH].
Qed.

Lemma fire_settles tr w : keeps_token tr = true → settles w (fire tr w).
Proof.
  destruct tr; try discriminate; intros _; simpl.
  - left. apply saveToken_same_lifecycle.
  - eapply settles_after; [|apply afterInputsRender_settles].
    unfold same_lifecycle. simpl. by destruct (mapRef w).
  - eapply settles_after; [|apply afterInputsRender_settles].
    unfold same_lifecycle. simpl. by destruct (mapRef w).
  - left. destruct (mapRef w) eqn:E; [|apply same_lifecycle_refl].
    eapply same_lifecycle_trans; [|apply styleLoad_same_lifecycle].
    unfold same_lifecycle. simpl. by rewrite E.
Qed.

Lemma setMapboxToken_same w : setMapboxToken (mapboxToken w) w = w.
Proof. by destruct w. Qed.

(** *** Accounting for the maps *)

Lemma same_lifecycle_accounted w w' :
  same_lifecycle w w' → maps_accounted w → maps_accounted w'.
Proof.
  unfold same_lifecycle, maps_accounted, live_maps.
  intros (-> & -> & _ & _ & _ & H) [Hc Hd]. split; [|done].
  by destruct (mapRef w), (mapRef w').
Qed.

Lemma initMapCleanup_accounted w :
  maps_accounted w →
  maps_accounted (initMapCleanup w) ∧ mapRef (initMapCleanup w) = None.
Proof.
  unfold maps_accounted, live_maps, initMapCleanup. intros [Hc Hd].
  destruct (mapRef w) as [m|] eqn:E; simpl; [|by rewrite E].
  split; [|done]. split.
  - rewrite length_app. simpl. lia.
  - apply Forall_app. split; [done|]. apply Forall_singleton.
    apply last_snoc.
Qed.

Lemma initMapEffect_accounted w :
  mapRef w = None → maps_accounted w → maps_accounted (initMapEffect w).
Proof.
  unfold maps_accounted, live_maps, initMapEffect. intros E [Hc Hd].
  destruct (_ || _); [by split|]. simpl.
  rewrite E in Hc. split; [lia|done].
Qed.

Lemma afterTokenRender_accounted (x : option string) w :
  maps_accounted w →
  maps_accounted (afterTokenRender (mapboxToken w) (setMapboxToken x w)).
Proof.
  intros H. unfold afterTokenRender. case_decide; [done|].
  destruct (initMapCleanup_accounted (setMapboxToken x w) H) as [Ha Hn].
  by apply initMapEffect_accounted.
Qed.

Lemma settles_accounted w w' :
  settles w w' → maps_accounted w → maps_accounted w'.
Proof.
  intros [S|(w1 & S & ->)] H.
  - by eapply same_lifecycle_accounted.
  - apply initMapCleanup_accounted. by eapply same_lifecycle_accounted.
Qed.

Lemma fire_accounted tr w : maps_accounted w → maps_accounted (fire tr w).
Proof.
  intros H. destruct (keeps_token tr) eqn:K.
  - eapply settles_accounted; [by apply fire_settles|done].
  - destruct tr; try discriminate; simpl.
    + by apply afterTokenRender_accounted.
    + by apply afterTokenRender_accounted.
    + by apply initMapCleanup_accounted.
Qed.

Lemma mount_accounted (storage : gmap string string) : maps_accounted (mount storage).
Proof.
  unfold mount.
  eapply settles_accounted;
    [apply after_effect_settles, updateLayerEffect_same_lifecycle|].
  apply initMapEffect_accounted; [done|]. by split.
Qed.

(** X3. Whatever happens after mounting, no map is lost track of and at
    most one is live: the number of maps constructed is the number disposed
    of plus the one the ref holds, if it holds one, and the last call made
    on every disposed map was [remove]. *)
Theorem every_map_accounted_for (storage : gmap string string) (trs : list Trigger) :
  let w := fire_all trs (mount storage) in
  constructed w = (length (disposed w) + live_maps w)%nat
  ∧ (live_maps w ≤ 1)%nat
  ∧ Forall (λ m, last (calls m) = Some CallRemove) (disposed w).
Proof.
  assert (G : ∀ w, maps_accounted w → maps_accounted (fire_all trs w)).
  { induction trs as [|tr trs IH]; intros w H; [done|].
    apply IH. by apply fire_accounted. }
  destruct (G (mount storage) (mount_accounted storage)) as [Hc Hd].
  simpl. repeat split; try done.
  unfold live_maps. destruct (mapRef _); lia.
Qed.

(** *** The map follows the token *)

Lemma same_lifecycle_follows w w' :
  same_lifecycle w w' → map_follows_token w → map_follows_token w'.
Proof.
  unfold same_lifecycle, map_follows_token.
  intros (_ & _ & Ht & Ha & Hk & H) (K & C).
  split; [congruence|].
  intros m' E'. rewrite E' in H. destruct (mapRef w) as [m|]; [|done].
  destruct (C m eq_refl) as (T & A & O & Z & v & t & Ls).
  destruct H as (Ho & Hz & Hl).
  split; [congruence|]. split; [congruence|].
  split; [congruence|]. split; [congruence|].
  exists v, t. congruence.
Qed.

Lemma initMapCleanup_frame w :
  mapContainer (initMapCleanup w) = mapContainer w
  ∧ mapboxToken (initMapCleanup w) = mapboxToken w
  ∧ mapRef (initMapCleanup w) = None.
Proof. unfold initMapCleanup. by destruct (mapRef w) eqn:E. Qed.

Lemma initMapCleanup_follows w :
  mapContainer w = true → map_follows_token (initMapCleanup w).
Proof.
  intros K. destruct (initMapCleanup_frame w) as (Fk & _ & Fr).
  split; [congruence|]. intros m E. congruence.
Qed.

Lemma settles_follows w w' :
  settles w w' → map_follows_token w → map_follows_token w'.
Proof.
  intros [S|(w1 & S & ->)] H.
  - by eapply same_lifecycle_follows.
  - apply initMapCleanup_follows. by eapply same_lifecycle_follows.
Qed.

Lemma initMapEffect_follows w :
  mapContainer w = true → mapRef w = None → map_follows_token (initMapEffect w).
Proof.
  intros K E. unfold initMapEffect. rewrite K. simpl.
  destruct (truthy (mapboxToken w)) eqn:T; simpl.
  - unfold map_follows_token. simpl. split; [done|].
    intros m [= <-]. split; [done|]. split; [done|].
    unfold configured. simpl. eauto.
  - unfold map_follows_token. rewrite E. split; [done|]. discriminate.
Qed.

Lemma afterTokenRender_follows (x : option string) w :
  map_follows_token w →
  map_follows_token (afterTokenRender (mapboxToken w) (setMapboxToken x w)).
Proof.
  intros H. unfold afterTokenRender. case_decide as D.
  - simpl in D. rewrite D. by rewrite setMapboxToken_same.
  - destruct (initMapCleanup_frame (setMapboxToken x w)) as (K & _ & E).
    apply initMapEffect_follows; [|done]. rewrite K. apply H.
Qed.

Lemma fire_follows tr w : map_follows_token w → map_follows_token (fire tr w).
Proof.
  intros H. destruct (keeps_token tr) eqn:K.
  - eapply settles_follows; [by apply fire_settles|done].
  - destruct tr; try discriminate; simpl.
    + by apply afterTokenRender_follows.
    + by apply afterTokenRender_follows.
    + apply initMapCleanup_follows, H.
Qed.

Lemma mount_follows (storage : gmap string string) : map_follows_token (mount storage).
Proof.
  unfold mount.
  eapply settles_follows;
    [apply after_effect_settles, updateLayerEffect_same_lifecycle|].
  by apply initMapEffect_follows.
Qed.

(** X4. Whatever happens after mounting, the ref holds a map only while
    the token in memory is truthy; that map was constructed with the token
    as the SDK's access token, with the options of line 67, and it still has
    scroll zoom disabled and its single [style.load] listener. *)
Theorem map_tracks_token (storage : gmap string string) (trs : list Trigger) :
  let w := fire_all trs (mount storage) in
  mapContainer w = true
  ∧ ∀ m, mapRef w = Some m →
         truthy (mapboxToken w) = true ∧ accessToken w = mapboxToken w
         ∧ configured m.
Proof.
  assert (G : ∀ w, map_follows_token w → map_follows_token (fire_all trs w)).
  { induction trs as [|tr trs IH]; intros w H; [done|].
    apply IH. by apply fire_follows. }
  exact (G (mount storage) (mount_follows storage)).
Qed.

(** X5. Unmounting removes the live map, once: the ref is cleared, the map
    it held is disposed of with [remove] as its last call, and a second
    unmount changes nothing, so that no map is removed twice. Without a
    live map unmounting does nothing. *)
Theorem unmount_disposes_once w :
  mapRef (fire Unmount w) = None
  ∧ disposed (fire Unmount w)
    = disposed w ++ match mapRef w with
                    | Some m => [record_call CallRemove m]
                    | None => []
                    end
  ∧ fire Unmount (fire Unmount w) = fire Unmount w
  ∧ set_disposed (disposed w) (set_mapRef (mapRef w) (fire Unmount w)) = w.
Proof.
  simpl. unfold initMapCleanup.
  destruct (mapRef w) as [m|] eqn:E; simpl.
  - repeat split. destruct w; simpl in *. by rewrite E.
  - rewrite E, app_nil_r. repeat split. destruct w; simpl in *. by rewrite E.
Qed.

End Lifecycle.

(** ** Control panel *)

Section Inputs.

Implicit Types (m : MapboxMap) (w : World) (v : VariableKey) (t : Z).

Lemma updateLayerEffect_run w m :
  mapRef w = Some m →
  updateLayerEffect w
  = (refresh_completion m,
     set_mapRef
       (Some (set_calls (calls m ++ refresh_calls (variable w) (timestep w) m)
                        (replay (refresh_calls (variable w) (timestep w) m) m))) w).
Proof.
  intros E. unfold updateLayerEffect. rewrite E.
  by rewrite (addOrUpdateWeatherLayer_run _ _ w m E).
Qed.

Lemma after_effect_loaded w m :
  mapRef w = Some m → styleLoaded m = true →
  after_effect (updateLayerEffect w)
  = set_mapRef
      (Some (set_calls (calls m ++ refresh_calls (variable w) (timestep w) m)
                       (replay (refresh_calls (variable w) (timestep w) m) m))) w.
Proof.
  intros E Hld. rewrite (updateLayerEffect_run w m E).
  unfold after_effect, refresh_completion. simpl. by rewrite Hld.
Qed.

(** X6. Moving the slider to another lead-time while a map is live and its
    style has loaded stores the new lead-time and rebuilds the overlay: the
    calls of one refresh are made, and afterwards the only overlay source
    has the tile URL of the selected variable and the new lead-time, and
    there is one overlay layer. *)
Theorem lead_time_change_rebuilds_overlay w m t :
  mapRef w = Some m → styleLoaded m = true → t ≠ timestep w →
  ∃ m' : MapboxMap,
    fire (SlideTimestep t) w = setTimestep t (set_mapRef (Some m') w)
    ∧ calls m' = calls m ++ refresh_calls (variable w) t m
    ∧ filter (λ p, p.1 = WEATHER_SOURCE_ID) (sources m')
      = [(WEATHER_SOURCE_ID,
          {| source_type := "raster";
             tiles := [buildWeatherTiles (variable w) t];
             tileSize := 256;
             attribution := attribution (weather_source (variable w) t) |})]
    ∧ filter (λ l, layer_id l = WEATHER_LAYER_ID) (layers m') = [weather_layer].
Proof.
  intros E Hld Hne. eexists. split; [|split; [|split]].
  - simpl. unfold afterInputsRender. rewrite decide_False by (simpl; tauto).
    by rewrite (after_effect_loaded (setTimestep t w) m E Hld).
  - reflexivity.
  - apply (refresh_overlay_sources (variable w) t m Hld).
  - apply (refresh_overlay_layers (variable w) t m Hld).
Qed.

Lemma lead_time_change_rebuilds_overlay_witness :
  ∃ m' : MapboxMap,
    fire (SlideTimestep 48) loaded_map_world
    = setTimestep 48 (set_mapRef (Some m') loaded_map_world)
    ∧ filter (λ l, layer_id l = WEATHER_LAYER_ID) (layers m') = [weather_layer].
Proof.
  destruct (lead_time_change_rebuilds_overlay loaded_map_world
              (set_styleLoaded true (new_Map MAP_OPTIONS)) 48 eq_refl eq_refl)
    as (m' & H & _ & _ & Hl).
  - discriminate.
  - exists m'. auto.
Defined.

(** X7. Selecting another variable while a map is live and its style has
    loaded stores it and rebuilds the overlay for that variable and the
    current lead-time, with the calls of one refresh and no second overlay
    source or layer. *)
Theorem variable_change_rebuilds_overlay w m v :
  mapRef w = Some m → styleLoaded m = true → v ≠ variable w →
  ∃ m' : MapboxMap,
    fire (SelectVariable v) w = setVariable v (set_mapRef (Some m') w)
    ∧ calls m' = calls m ++ refresh_calls v (timestep w) m
    ∧ filter (λ p, p.1 = WEATHER_SOURCE_ID) (sources m')
      = [(WEATHER_SOURCE_ID,
          {| source_type := "raster";
             tiles := [buildWeatherTiles v (timestep w)];
             tileSize := 256;
             attribution := attribution (weather_source v (timestep w)) |})]
    ∧ filter (λ l, layer_id l = WEATHER_LAYER_ID) (layers m') = [weather_layer].
Proof.
  intros E Hld Hne. eexists. split; [|split; [|split]].
  - simpl. unfold afterInputsRender. rewrite decide_False by (simpl; tauto).
    by rewrite (after_effect_loaded (setVariable v w) m E Hld).
  - reflexivity.
  - apply (refresh_overlay_sources v (timestep w) m Hld).
  - apply (refresh_overlay_layers v (timestep w) m Hld).
Qed.

Lemma variable_change_rebuilds_overlay_witness :
  ∃ m' : MapboxMap,
    fire (SelectVariable wind_stream) loaded_map_world
    = setVariable wind_stream (set_mapRef (Some m') loaded_map_world)
    ∧ filter (λ l, layer_id l = WEATHER_LAYER_ID) (layers m') = [weather_layer].
Proof.
  destruct (variable_change_rebuilds_overlay loaded_map_world
              (set_styleLoaded true (new_Map MAP_OPTIONS)) wind_stream
              eq_refl eq_refl)
    as (m' & H & _ & _ & Hl).
  - discriminate.
  - exists m'. auto.
Defined.

(** X8. Without a live map the control panel only changes the selection:
    the variable or the lead-time is stored and nothing else happens. *)
Theorem inputs_without_map w v t :
  mapRef w = None →
  fire (SelectVariable v) w = setVariable v w
  ∧ fire (SlideTimestep t) w = setTimestep t w.
Proof.
  intros E. simpl. unfold afterInputsRender, after_effect, updateLayerEffect.
  simpl. rewrite E. split; by case_decide.
Qed.

Lemma inputs_without_map_witness :
  fire (SelectVariable wind_stream) (mount ∅) = setVariable wind_stream (mount ∅)
  ∧ fire (SlideTimestep 48) (mount ∅) = setTimestep 48 (mount ∅).
Proof. apply inputs_without_map. reflexivity. Defined.

End Inputs.

(** ** Mounting with a token, and when the style has loaded *)

Section MountAndStyleLoad.

Implicit Types (m : MapboxMap) (w : World) (storage : gmap string string).

Lemma mount_run_with_token storage (tok : string) :
  storage !! TOKEN_KEY = Some tok → tok ≠ "" →
  mount storage
  = {| localStorage := storage; browser := []; accessToken := Some tok;
       constructed := 1;
       disposed :=
         [ {| options := MAP_OPTIONS; sources := []; layers := []; fog := None;
              listeners := [mount_listener]; scrollZoom := false;
              styleLoaded := false;
              calls := [ CallAddControl "top-right"; CallOn mount_listener;
                         CallScrollZoomDisable;
                         CallGetLayer WEATHER_LAYER_ID;
                         CallGetSource WEATHER_SOURCE_ID;
                         CallAddSource WEATHER_SOURCE_ID
                           (weather_source air_temperature 6);
                         CallRemove ] |} ];
       mapContainer := true; mapRef := None;
       mapboxToken := Some tok; variable := air_temperature; timestep := 6 |}.
Proof.
  intros E Hne. destruct tok as [|c tok]; [done|].
  unfold mount, initMapEffect, initial_state. simpl. rewrite E. reflexivity.
Qed.

(** X9. Mounting with a non-empty token in local storage makes the token
    the SDK's access token and constructs one map, on which the calls are,
    in this order: add the navigation control, register the [style.load]
    listener, disable scroll zoom, and then -- from the second effect,
    which does not wait for the style -- the refresh for the default
    selection. That refresh throws in [addSource], since the style has not
    loaded: [addLayer] is not reached, the tree is unmounted and the map is
    removed without an overlay. Nothing is written to local storage. *)
Theorem mount_with_token storage (tok : string) :
  storage !! TOKEN_KEY = Some tok → tok ≠ "" →
  accessToken (mount storage) = Some tok
  ∧ constructed (mount storage) = 1%nat
  ∧ mapRef (mount storage) = None
  ∧ (calls <$> disposed (mount storage))
    = [ [ CallAddControl "top-right"; CallOn mount_listener;
          CallScrollZoomDisable;
          CallGetLayer WEATHER_LAYER_ID; CallGetSource WEATHER_SOURCE_ID;
          CallAddSource WEATHER_SOURCE_ID (weather_source air_temperature 6);
          CallRemove ] ]
  ∧ (sources <$> disposed (mount storage)) = [ [] ]
  ∧ (layers <$> disposed (mount storage)) = [ [] ]
  ∧ localStorage (mount storage) = storage
  ∧ browser (mount storage) = [].
Proof.
  intros E Hne. rewrite (mount_run_with_token storage tok E Hne).
  by repeat split.
Qed.

Lemma mount_with_token_witness :
  constructed (mount {[ TOKEN_KEY := "pk.demo" ]}) = 1%nat
  ∧ mapRef (mount {[ TOKEN_KEY := "pk.demo" ]}) = None.
Proof.
  destruct (mount_with_token {[ TOKEN_KEY := "pk.demo" ]} "pk.demo")
    as (_ & Hc & Hm & _).
  - reflexivity.
  - discriminate.
  - auto.
Defined.

(** X10. What Save stores, a reload reads back: mounting on the local
    storage that Save left, with a non-empty token in memory, starts with
    that token in memory and as the SDK's access token and constructs one
    map for it. *)
Theorem saved_token_survives_reload w (tok : string) :
  mapboxToken w = Some tok → tok ≠ "" →
  let w' := mount (localStorage (saveToken w)) in
  mapboxToken w' = Some tok
  ∧ accessToken w' = Some tok
  ∧ constructed w' = 1%nat
  ∧ localStorage w' = <[TOKEN_KEY := tok]> (localStorage w).
Proof.
  intros E Hne. rewrite (saveToken_non_empty w tok E Hne). simpl.
  rewrite (mount_run_with_token _ tok (lookup_insert_eq _ _ _) Hne).
  by repeat split.
Qed.

Lemma saved_token_survives_reload_witness :
  mapboxToken (mount (localStorage (saveToken (changeToken "pk.demo" (mount ∅)))))
  = Some "pk.demo".
Proof.
  apply (saved_token_survives_reload (changeToken "pk.demo" (mount ∅)) "pk.demo").
  - reflexivity.
  - discriminate.
Defined.

Lemma style_load_single fog_error w m (l : Listener) :
  mapRef w = Some m →
  filter (λ l, event l = "style.load") (listeners m) = [l] →
  fire (StyleLoad fog_error) w
  = (addOrUpdateWeatherLayer (captured_variable l) (captured_timestep l)
       (set_mapRef (Some (setFog_of fog_error FOG (set_styleLoaded true m)).2) w)).2.
Proof.
  intros E Hl. simpl. rewrite E, Hl. simpl.
  by rewrite (styleLoadHandler_run _ l (set_mapRef _ w)
                (set_styleLoaded true m) eq_refl).
Qed.

Lemma style_load_overlay fog_error w m (l : Listener) :
  mapRef w = Some m →
  filter (λ l, event l = "style.load") (listeners m) = [l] →
  ∃ m' : MapboxMap,
    fire (StyleLoad fog_error) w = set_mapRef (Some m') w
    ∧ filter (λ p, p.1 = WEATHER_SOURCE_ID) (sources m')
      = [(WEATHER_SOURCE_ID,
          weather_source (captured_variable l) (captured_timestep l))]
    ∧ filter (λ l, layer_id l = WEATHER_LAYER_ID) (layers m') = [weather_layer]
    ∧ fog m' = match fog_error with None => Some FOG | Some _ => fog m end.
Proof.
  intros E Hl. rewrite (style_load_single fog_error w m l E Hl).
  assert (Hld : styleLoaded (setFog_of fog_error FOG (set_styleLoaded true m)).2
                = true) by by destruct fog_error.
  rewrite (addOrUpdateWeatherLayer_live _ _ (set_mapRef _ w)
             (setFog_of fog_error FOG (set_styleLoaded true m)).2 eq_refl Hld).
  eexists. split; [reflexivity|]. split; [|split].
  - by apply refresh_overlay_sources.
  - by apply refresh_overlay_layers.
  - pose proof (refresh_frame (captured_variable l) (captured_timestep l)
                  (setFog_of fog_error FOG (set_styleLoaded true m)).2)
      as (_ & Hf & _).
    etrans; [exact Hf|]. by destruct fog_error.
Qed.

(** X11. When [style.load] fires on a live map with its one listener, the
    overlay is rebuilt from the variable and lead-time that listener
    captured when the map was constructed, not from the current selection;
    the fog is set unless [setFog] threw, and the selection itself is not
    changed. *)
Theorem style_load_uses_captured_inputs fog_error w m (l : Listener) :
  mapRef w = Some m →
  filter (λ l, event l = "style.load") (listeners m) = [l] →
  ∃ m' : MapboxMap,
    fire (StyleLoad fog_error) w = set_mapRef (Some m') w
    ∧ filter (λ p, p.1 = WEATHER_SOURCE_ID) (sources m')
      = [(WEATHER_SOURCE_ID,
          weather_source (captured_variable l) (captured_timestep l))]
    ∧ filter (λ l, layer_id l = WEATHER_LAYER_ID) (layers m') = [weather_layer]
    ∧ fog m' = match fog_error with None => Some FOG | Some _ => fog m end.
Proof. apply style_load_overlay. Qed.

Lemma style_load_uses_captured_inputs_witness :
  ∃ m' : MapboxMap,
    fire (StyleLoad None) typed_token_world = set_mapRef (Some m') typed_token_world
    ∧ fog m' = Some FOG.
Proof.
  assert (Hm : mapRef typed_token_world
               = Some (replay [ CallAddControl "top-right"; CallOn mount_listener;
                                CallScrollZoomDisable ]
                         (set_calls [ CallAddControl "top-right";
                                      CallOn mount_listener;
                                      CallScrollZoomDisable ]
                            (new_Map MAP_OPTIONS))))
    by (vm_compute; reflexivity).
  destruct (style_load_uses_captured_inputs None typed_token_world _
              mount_listener Hm eq_refl)
    as (m' & H & _ & _ & Hf).
  exists m'. auto.
Defined.

Lemma refresh_before_load_registries v t m :
  styleLoaded m = false →
  sources (replay (refresh_calls v t m) m)
  = filter (λ p, p.1 ≠ WEATHER_SOURCE_ID) (sources m)
  ∧ layers (replay (refresh_calls v t m) m)
    = filter (λ l, layer_id l ≠ WEATHER_LAYER_ID) (layers m)
  ∧ last (refresh_calls v t m)
    = Some (CallAddSource WEATHER_SOURCE_ID (weather_source v t)).
Proof.
  intros Hld. destruct m as [o srcs lyrs fg ls sz ld cs]. simpl in Hld. subst ld.
  unfold refresh_calls. simpl.
  destruct (find _ lyrs) eqn:El; destruct (find _ srcs) eqn:Es; simpl;
    rewrite ?(find_None_filter_not _ _ El), ?(find_None_filter_not _ _ Es);
    by repeat split.
Qed.

Lemma after_effect_before_load w m :
  mapRef w = Some m → styleLoaded m = false →
  after_effect (updateLayerEffect w)
  = set_mapRef None
      (set_disposed
         (disposed w
          ++ [record_call CallRemove
                (set_calls (calls m ++ refresh_calls (variable w) (timestep w) m)
                   (replay (refresh_calls (variable w) (timestep w) m) m))]) w).
Proof.
  intros E Hld. rewrite (updateLayerEffect_run w m E).
  unfold after_effect, refresh_completion. simpl. by rewrite Hld.
Qed.

(** X12. Changing the lead-time or the variable while the map is live but
    its style has not loaded takes the component down: the refresh of the
    second effect throws in [addSource], its last call, so the tree is
    unmounted and the map removed. The removed map has no overlay: the
    refresh added nothing to its sources and layers. *)
Theorem input_change_before_style_load w m (v : VariableKey) (t : Z) :
  mapRef w = Some m → styleLoaded m = false →
  v ≠ variable w → t ≠ timestep w →
  (∃ m' : MapboxMap,
     fire (SlideTimestep t) w
     = set_mapRef None (set_disposed (disposed w ++ [m']) (setTimestep t w))
     ∧ calls m' = (calls m ++ refresh_calls (variable w) t m) ++ [CallRemove]
     ∧ last (refresh_calls (variable w) t m)
       = Some (CallAddSource WEATHER_SOURCE_ID (weather_source (variable w) t))
     ∧ sources m' = filter (λ p, p.1 ≠ WEATHER_SOURCE_ID) (sources m)
     ∧ layers m' = filter (λ l, layer_id l ≠ WEATHER_LAYER_ID) (layers m))
  ∧ (∃ m' : MapboxMap,
       fire (SelectVariable v) w
       = set_mapRef None (set_disposed (disposed w ++ [m']) (setVariable v w))
       ∧ calls m' = (calls m ++ refresh_calls v (timestep w) m) ++ [CallRemove]
       ∧ last (refresh_calls v (timestep w) m)
         = Some (CallAddSource WEATHER_SOURCE_ID (weather_source v (timestep w)))
       ∧ sources m' = filter (λ p, p.1 ≠ WEATHER_SOURCE_ID) (sources m)
       ∧ layers m' = filter (λ l, layer_id l ≠ WEATHER_LAYER_ID) (layers m)).
Proof.
  intros E Hld Hv Ht. split.
  - destruct (refresh_before_load_registries (variable w) t m Hld) as (Hs & Hl & Hc).
    eexists. split.
    { simpl. unfold afterInputsRender. rewrite decide_False by (simpl; tauto).
      by rewrite (after_effect_before_load (setTimestep t w) m E Hld). }
    by repeat split.
  - destruct (refresh_before_load_registries v (timestep w) m Hld) as (Hs & Hl & Hc).
    eexists. split.
    { simpl. unfold afterInputsRender. rewrite decide_False by (simpl; tauto).
      by rewrite (after_effect_before_load (setVariable v w) m E Hld). }
    by repeat split.
Qed.

Lemma input_change_before_style_load_witness :
  ∃ m' : MapboxMap,
    fire (SlideTimestep 48) fresh_map_world
    = set_mapRef None (set_disposed [m'] (setTimestep 48 fresh_map_world))
    ∧ sources m' = [].
Proof.
  destruct (input_change_before_style_load fresh_map_world
              (new_Map MAP_OPTIONS) wind_stream 48 eq_refl eq_refl)
    as [(m' & H & _ & _ & Hs & _) _].
  - discriminate.
  - discriminate.
  - exists m'. auto.
Defined.

End MountAndStyleLoad.

(** ** What the page lets the user do *)

Section UserInterface.

Implicit Types (m : MapboxMap) (w : World) (tr : Trigger)
  (storage : gmap string string).

Lemma form_controls_cases w :
  form_controls w
  = if truthy (mapboxToken w) then []
    else [ Heading "Enter Mapbox public token";
           TextField "pk.eyJ1Ijo..." (default "" (mapboxToken w));
           Button "Clear" ClickClear;
           Button "Save token" ClickSave ].
Proof. unfold form_controls, render. by destruct (truthy (mapboxToken w)). Qed.

Lemma offered_form_control tr w :
  keeps_token tr = false ∨ tr = ClickSave → tr ≠ Unmount →
  offered tr w = negb (truthy (mapboxToken w)).
Proof.
  intros H Hu. unfold offered. rewrite form_controls_cases.
  destruct tr; try done; try (by destruct H);
    by destruct (truthy (mapboxToken w)).
Qed.

(** X13. Typing a non-empty value into the token field, while the form is
    shown and no map is live, makes that value the token in memory and the
    SDK's access token and constructs a map at once: the form is gone,
    nothing is stored, and the new map has its control, its [style.load]
    listener for the current selection and scroll zoom disabled, but no
    overlay yet -- the second effect does not run on a token change. *)
Theorem typed_token_constructs_map w (c : Ascii.ascii) (value : string) :
  mapContainer w = true → truthy (mapboxToken w) = false → mapRef w = None →
  fire (InputChange (String c value)) w
  = set_mapRef
      (Some {| options := MAP_OPTIONS; sources := []; layers := []; fog := None;
               listeners := [ {| event := "style.load";
                                 captured_variable := variable w;
                                 captured_timestep := timestep w |} ];
               scrollZoom := false; styleLoaded := false;
               calls := [ CallAddControl "top-right";
                          CallOn {| event := "style.load";
                                    captured_variable := variable w;
                                    captured_timestep := timestep w |};
                          CallScrollZoomDisable ] |})
      (set_constructed (S (constructed w))
         (set_accessToken (Some (String c value))
            (setMapboxToken (Some (String c value)) w)))
  ∧ form_controls (fire (InputChange (String c value)) w) = []
  ∧ localStorage (fire (InputChange (String c value)) w) = localStorage w.
Proof.
  intros K T E.
  assert (H : fire (InputChange (String c value)) w
              = initMapEffect (setMapboxToken (Some (String c value)) w)).
  { simpl. unfold afterTokenRender, changeToken. rewrite decide_False.
    - unfold initMapCleanup. simpl. by rewrite E.
    - simpl. intros D. rewrite <- D in T. discriminate. }
  rewrite H. unfold initMapEffect. simpl. rewrite K. simpl.
  split; [done|]. split; [|done]. by rewrite form_controls_cases.
Qed.

Lemma typed_token_constructs_map_witness :
  form_controls (fire (InputChange "p") (mount ∅)) = []
  ∧ localStorage (fire (InputChange "p") (mount ∅)) = localStorage (mount ∅).
Proof.
  destruct (typed_token_constructs_map (mount ∅)
              (Ascii.Ascii false false false false true true true false) "")
    as (_ & Hf & Hl);
    try reflexivity.
  auto.
Defined.

Lemma offered_run_untouched (trs : list Trigger) w :
  all_offered trs w = true → untouched w (fire_all trs w).
Proof.
  revert w. induction trs as [|tr trs IH]; intros w H; [apply untouched_refl|].
  simpl in H. apply andb_prop in H as [Ho H].
  eapply untouched_trans; [|apply IH, H].
  assert (tr = ClickSave ∨ tr ≠ ClickSave) as [->|Hn]
    by (destruct tr; (by left) || (by right)).
  - rewrite offered_form_control in Ho by (auto || done).
    apply negb_true_iff, truthy_false in Ho.
    simpl. rewrite (saveToken_empty w Ho). apply untouched_refl.
  - by apply fire_untouched.
Qed.

(** X14. Through the page itself nothing is ever stored: in any run from a
    mount in which each trigger is one the page offers at that moment, local
    storage stays what it was at the mount and no page reload is requested.
    The Save button is rendered only while the token in memory is empty, and
    then Save does nothing. *)
Theorem page_never_stores_token storage (trs : list Trigger) :
  all_offered trs (mount storage) = true →
  localStorage (fire_all trs (mount storage)) = storage
  ∧ browser (fire_all trs (mount storage)) = [].
Proof.
  intros H. destruct (offered_run_untouched trs (mount storage) H) as [-> ->].
  apply mount_untouched.
Qed.

Lemma page_never_stores_token_witness :
  localStorage
    (fire_all [InputChange "pk.demo"; StyleLoad None; SlideTimestep 24; Unmount]
              (mount ∅)) = ∅.
Proof.
  apply (page_never_stores_token ∅
           [InputChange "pk.demo"; StyleLoad None; SlideTimestep 24; Unmount]).
  vm_compute. reflexivity.
Defined.

Lemma same_lifecycle_one_map w w' :
  same_lifecycle w w' → one_map_at_most w → one_map_at_most w'.
Proof.
  unfold same_lifecycle, one_map_at_most.
  intros (-> & _ & -> & _ & -> & H) (K & L & N).
  split; [done|]. split; [done|]. intros T. destruct (N T) as [N0 N1].
  split; [done|]. rewrite N1 in H. by destruct (mapRef w').
Qed.

Lemma initMapCleanup_one_map w :
  one_map_at_most w → one_map_at_most (initMapCleanup w).
Proof.
  intros (Hk & L & N). destruct (initMapCleanup_frame w) as (Fk & Ft & Fr).
  assert (Hc : constructed (initMapCleanup w) = constructed w)
    by (unfold initMapCleanup; by destruct (mapRef w)).
  unfold one_map_at_most. rewrite Fk, Ft, Fr, Hc.
  split; [done|]. split; [done|]. intros T. by destruct (N T).
Qed.

Lemma settles_one_map w w' :
  settles w w' → one_map_at_most w → one_map_at_most w'.
Proof.
  intros [S|(w1 & S & ->)] H.
  - by eapply same_lifecycle_one_map.
  - apply initMapCleanup_one_map. by eapply same_lifecycle_one_map.
Qed.

Lemma token_step_one_map (x : option string) w :
  truthy (mapboxToken w) = false → one_map_at_most w →
  one_map_at_most (afterTokenRender (mapboxToken w) (setMapboxToken x w)).
Proof.
  intros T (K & L & N). destruct (N T) as [N0 N1].
  unfold afterTokenRender. case_decide as D.
  - simpl in D. rewrite D, setMapboxToken_same. by repeat split.
  - unfold initMapCleanup. simpl. rewrite N1.
    unfold initMapEffect. simpl. rewrite K. simpl.
    destruct (truthy x) eqn:Tx; simpl.
    + unfold one_map_at_most. simpl. rewrite Tx, N0. repeat split; done || lia.
    + unfold one_map_at_most. simpl. rewrite Tx. by repeat split.
Qed.

Lemma offered_step_one_map tr w :
  offered tr w = true → one_map_at_most w → one_map_at_most (fire tr w).
Proof.
  intros Ho H. destruct (keeps_token tr) eqn:K.
  - eapply settles_one_map; [by apply fire_settles|done].
  - destruct tr; try discriminate.
    + rewrite offered_form_control in Ho by (auto || done).
      apply negb_true_iff in Ho. by apply token_step_one_map.
    + rewrite offered_form_control in Ho by (auto || done).
      apply negb_true_iff in Ho. by apply token_step_one_map.
    + by apply initMapCleanup_one_map.
Qed.

Lemma mount_one_map storage : one_map_at_most (mount storage).
Proof.
  destruct (truthy (storage !! TOKEN_KEY)) eqn:T.
  - destruct (storage !! TOKEN_KEY) as [[|c tok]|] eqn:E; try discriminate.
    rewrite (mount_run_with_token storage (String c tok) E) by done.
    unfold one_map_at_most. simpl. repeat split; done || lia.
  - rewrite (mount_without_token storage T).
    unfold one_map_at_most. simpl. repeat split; done || lia.
Qed.

(** X15. Through the page itself at most one map is constructed per mount,
    and so at most one is ever disposed of: the token field and the Clear
    button are there only while no token is set, so that the token cannot
    change once a map has been constructed. *)
Theorem page_constructs_one_map storage (trs : list Trigger) :
  all_offered trs (mount storage) = true →
  (constructed (fire_all trs (mount storage)) ≤ 1)%nat
  ∧ (length (disposed (fire_all trs (mount storage))) ≤ 1)%nat.
Proof.
  assert (G : ∀ w, all_offered trs w = true →
              one_map_at_most w ∧ maps_accounted w →
              one_map_at_most (fire_all trs w) ∧ maps_accounted (fire_all trs w)).
  { induction trs as [|tr trs IH]; intros w Ho H; [done|].
    simpl in Ho. apply andb_prop in Ho as [Htr Ho].
    apply (IH (fire tr w) Ho). destruct H as [H1 H2]. split.
    - by apply offered_step_one_map.
    - by apply fire_accounted. }
  intros Ho.
  destruct (G (mount storage) Ho (conj (mount_one_map storage) (mount_accounted storage)))
    as [(_ & L & _) [Hc _]].
  split; [done|]. lia.
Qed.

Lemma page_constructs_one_map_witness :
  (constructed
     (fire_all [InputChange "pk.demo"; StyleLoad None; SlideTimestep 24]
               (mount ∅)) ≤ 1)%nat.
Proof.
  apply (page_constructs_one_map ∅
           [InputChange "pk.demo"; StyleLoad None; SlideTimestep 24]).
  vm_compute. reflexivity.
Defined.

Lemma panels_single w :
  panels w
  = [ {| selected := variable w;
         choices := (λ v, (key v, label v)) <$> VARIABLES;
         lead_time := Number_toString (timestep w) +:+ "h";
         slider_value := timestep w;
         slider_min := 0; slider_max := 72; slider_step := 6 |} ].
Proof. unfold panels, render. by destruct (truthy (mapboxToken w)). Qed.

(** X16. The control panel is always rendered, once, and its slider sits
    at the stored lead-time. The slider's stops are the multiples of 6 from
    0 to 72: they include every lead-time of [TIMESTEPS], and also 18, 30,
    42, 54 and 66, which [TIMESTEPS] does not list; the dropdown offers the
    three variable keys. *)
Theorem slider_offers_more_than_TIMESTEPS w :
  length (panels w) = 1%nat
  ∧ Forall (λ p,
      slider_value p = timestep w
      ∧ selected p = variable w
      ∧ (choices p).*1 = key <$> VARIABLES
      ∧ slider_stops p = [0; 6; 12; 18; 24; 30; 36; 42; 48; 54; 60; 66; 72]
      ∧ TIMESTEPS ⊆ slider_stops p
      ∧ filter (λ t, t ∉ TIMESTEPS) (slider_stops p) = [18; 30; 42; 54; 66])
    (panels w).
Proof.
  rewrite panels_single. split; [done|]. apply Forall_singleton.
  assert (Hs : slider_stops
                 {| selected := variable w;
                    choices := (λ v, (key v, label v)) <$> VARIABLES;
                    lead_time := Number_toString (timestep w) +:+ "h";
                    slider_value := timestep w;
                    slider_min := 0; slider_max := 72; slider_step := 6 |}
               = [0; 6; 12; 18; 24; 30; 36; 42; 48; 54; 60; 66; 72])
    by reflexivity.
  rewrite Hs. repeat split; try done.
  intros t Ht. unfold TIMESTEPS in Ht.
  repeat (apply elem_of_cons in Ht as [-> | Ht]); try compute_done.
  by apply elem_of_nil in Ht.
Qed.

End UserInterface.
